(** * A shallow embedding of the SMC-ABC step method of pymc3
    ([pymc3/step_methods/smc_ABC.py]).

    NumPy float64 values are modelled as extended reals: a real number
    (rounding is not modelled), the two infinities and NaN.  Python
    exceptions become the [Err] case of a result type.  The model
    context, the compiled Theano function [logp_forw], the random
    source and the SciPy density are parameters (Section variables). *)

From Stdlib Require Import Reals Lra Lia List ZArith Sorted.
From Stdlib Require String.
Import ListNotations.
Open Scope R_scope.
Open Scope list_scope.

(** ** Values and errors *)

(** A float64 as seen by [np.isfinite], [np.isnan] and [np.isinf]. *)
Inductive xR : Type :=
| Fin (r : R)
| PInf
| NInf
| NaN.

Definition isfinite (x : xR) : bool :=
  match x with Fin _ => true | _ => false end.

Definition isnan (x : xR) : bool :=
  match x with NaN => true | _ => false end.

Definition isinf (x : xR) : bool :=
  match x with PInf | NInf => true | _ => false end.

(** [np.exp] on a float64. *)
Definition xexp (x : xR) : xR :=
  match x with
  | Fin r => Fin (exp r)
  | PInf => PInf
  | NInf => Fin 0
  | NaN => NaN
  end.

(** Float64 subtraction [a - b]. *)
Definition xsub (a b : xR) : xR :=
  match a, b with
  | Fin x, Fin y => Fin (x - y)
  | NaN, _ | _, NaN => NaN
  | PInf, PInf | NInf, NInf => NaN
  | PInf, _ | _, NInf => PInf
  | NInf, _ | _, PInf => NInf
  end.

(** The Python exceptions the embedded code can raise. *)
Inductive pyerr : Type :=
| ValueError
| IndexError
| ZeroDivisionError
| RuntimeError
| LinAlgError
| UnboundLocalError
| MaskedResult.

Inductive result (A : Type) : Type :=
| Ok (a : A)
| Err (e : pyerr).
Arguments Ok {A} a.
Arguments Err {A} e.

(** ** Python list helpers *)

(** [l[n] = v] on a Python list: [IndexError] out of range. *)
Fixpoint set_nth {A : Type} (l : list A) (n : nat) (v : A) : option (list A) :=
  match l, n with
  | [], _ => None
  | _ :: t, O => Some (v :: t)
  | h :: t, S n' =>
      match set_nth t n' v with
      | Some t' => Some (h :: t')
      | None => None
      end
  end.

(** Python indexing [l[i]] with negative indices counted from the end. *)
Definition py_index {A : Type} (l : list A) (i : Z) : result A :=
  let n := Z.of_nat (length l) in
  if ((0 <=? i)%Z && (i <? n)%Z)%bool then
    match nth_error l (Z.to_nat i) with Some v => Ok v | None => Err IndexError end
  else if ((- n <=? i)%Z && (i <? 0)%Z)%bool then
    match nth_error l (Z.to_nat (n + i)) with Some v => Ok v | None => Err IndexError end
  else Err IndexError.

(** ** The mutation kernel [SMC_ABC.astep] *)

Module Astep.

(** The attributes of the step object that [astep] reads or writes.
    [epsilon] is read at line 236; [discrete] is the per-dimension mask
    built by [__init__] (lines 214-216). *)
Record smc_state : Type := mkState {
  stage : Z;
  epsilon : R;
  chain_index : nat;
  llk_index : nat;
  chain_previous_lpoint : list (list xR);
  covariance : list (list R);
  scaling : R;
  discrete : list bool
}.

Definition set_previous (st : smc_state) (prev : list (list xR)) : smc_state :=
  mkState (stage st) (epsilon st) (chain_index st) (llk_index st) prev
          (covariance st) (scaling st) (discrete st).

(** [self.covariance * self.scaling] with a scalar [scaling]. *)
Definition scale_mat (c : list (list R)) (a : R) : list (list R) :=
  map (map (fun x => x * a)) c.

Section Kernel.

(** [self.logp_forw]: the compiled model function, returning the values
    of the output variables. *)
Variable logp_forw : list R -> list xR.
(** [self.proposal_dist(1)[0,0]] at the [a]-th call. *)
Variable proposal_draw : nat -> R.
(** [self.proposal_dist.logp(s, value)], i.e.
    [multivariate_normal(0, cov=s).logpdf(value)]. *)
Variable mvn_logpdf : list (list R) -> list R -> xR.

(** [q0 + delta] with a scalar [delta] broadcast over [q0]. *)
Definition candidate (q0 : list R) (a : nat) : list R :=
  map (fun x => x + proposal_draw a) q0.

(** The body of [for _ in range(5000)]: [budget] attempts are left, the
    next draw is the [a]-th one, [last] holds the values of [q_new] and
    [l_new] after the previous iteration. *)
Fixpoint mutate (budget a : nat) (q0 : list R) (st : smc_state)
    (last : option (list R * list xR)) : result (list R * list xR * smc_state) :=
  match budget with
  | O =>
      match last with
      | Some (q, l) => Ok (q, l, st)
      | None => Err UnboundLocalError
      end
  | S b =>
      let q_prop := candidate q0 a in
      let l_new := logp_forw q_prop in
      match nth_error l_new (llk_index st) with
      | None => Err IndexError
      | Some logp_prior =>
          if isfinite logp_prior then
            let s := scale_mat (covariance st) (scaling st) in
            let logp_proposal := mvn_logpdf s q_prop in
            match set_nth l_new (llk_index st) (xexp (xsub logp_prior logp_proposal)) with
            | None => Err IndexError
            | Some l' =>
                match set_nth (chain_previous_lpoint st) (chain_index st) l' with
                | None => Err IndexError
                | Some prev' => Ok (q_prop, l', set_previous st prev')
                end
            end
          else
            match nth_error (chain_previous_lpoint st) (chain_index st) with
            | None => Err IndexError
            | Some l => mutate b (S a) q0 st (Some (q0, l))
            end
      end
  end.

Definition astep (st : smc_state) (q0 : list R) : result (list R * list xR * smc_state) :=
  if (stage st =? 0)%Z then
    let l_new := logp_forw q0 in
    match nth_error l_new (llk_index st) with
    | None => Err IndexError
    | Some v =>
        match set_nth l_new (llk_index st) (xexp v) with
        | None => Err IndexError
        | Some l' => Ok (q0, l', st)
        end
    end
  else mutate 5000 0 q0 st None.

End Kernel.

End Astep.

(** ** The tolerance scheduler [_calc_epsilon] and [SMC_ABC.calc_beta] *)

Module Scheduler.

(** [np.sort] (ascending). *)
Fixpoint insert (x : R) (l : list R) : list R :=
  match l with
  | [] => [x]
  | h :: t => if Rle_dec x h then x :: l else h :: insert x t
  end.

Fixpoint isort (l : list R) : list R :=
  match l with
  | [] => []
  | h :: t => insert h (isort t)
  end.

(** [np.clip(a, lo, hi)]. *)
Definition clip (a lo hi : R) : R := Rmin (Rmax a lo) hi.

(** The plotting positions of [scipy.stats.mstats.mquantiles]
    (defaults [alphap = betap = 0.4]). *)
Definition alphap : R := 2 / 5.
Definition betap : R := 2 / 5.

(** [_quantiles1D] for a sorted sample of size at least 2:
    [aleph = n*p + m], [k = floor(clip(aleph, 1, n-1))],
    [gamma = clip(aleph - k, 0, 1)],
    result [(1-gamma)*x[k-1] + gamma*x[k]]. *)
Definition quantile_sorted (x : list R) (p : R) : R :=
  let n := INR (length x) in
  let m := alphap + p * (1 - alphap - betap) in
  let aleph := n * p + m in
  let k := Int_part (clip aleph 1 (n - 1)) in
  let gamma := clip (aleph - IZR k) 0 1 in
  (1 - gamma) * nth (Z.to_nat (k - 1)) x 0 + gamma * nth (Z.to_nat k) x 0.

(** [mquantiles(data, prob=probs)]; an empty sample gives a fully
    masked result, which is reported as [MaskedResult]. *)
Definition mquantiles (data : list R) (probs : list R) : result (list R) :=
  let x := isort data in
  match x with
  | [] => Err MaskedResult
  | [v] => Ok (map (fun _ => v) probs)
  | _ => Ok (map (quantile_sorted x) probs)
  end.

(** A point of the population: variable name to (scalar) value. *)
Definition point := String.string -> R.

(** [_calc_epsilon(epsilons, population, vars, iqr_scale, stage)];
    [epsilons = None] is the adaptive mode. *)
Definition calc_epsilon (epsilons : option (list R)) (population : list point)
    (vars : list String.string) (iqr_scale : R) (stage : Z) : result R :=
  match epsilons with
  | None =>
      match mquantiles (flat_map (fun d => map d vars) population) [1/4; 3/4] with
      | Ok [q25; q75] => Ok (Rabs (q75 - q25) * iqr_scale)
      | Ok _ => Err IndexError
      | Err e => Err e
      end
  | Some eps => py_index eps stage
  end.

Definition sum (l : list R) : R := fold_right Rplus 0 l.

(** [SMC_ABC.calc_beta]: returns the weights, the epsilon and the new
    value of [self.likelihoods]. *)
Definition calc_beta (likelihoods : list R) (epsilons : option (list R))
    (population : list point) (vars : list String.string) (iqr_scale : R) (stage : Z)
    : result (list R * R * list R) :=
  let likelihoods' := map (fun _ => 1) likelihoods in
  let weights := map (fun w => w / sum likelihoods') likelihoods' in
  match calc_epsilon epsilons population vars iqr_scale stage with
  | Ok epsilon => Ok (weights, epsilon, likelihoods')
  | Err e => Err e
  end.

(** The weights described for the scheduler: the stabilised softmax
    [exp(w_i - max w) / sum_j exp(w_j - max w)] of the log-weights. *)
Definition list_max (l : list R) : R :=
  match l with
  | [] => 0
  | h :: t => fold_left Rmax t h
  end.

Definition spec_softmax (w : list R) : list R :=
  let e := map (fun wi => exp (wi - list_max w)) w in
  map (fun ei => ei / sum e) e.

End Scheduler.

(** ** The stage loop of [sample_smc_abc] (lines 514-564) *)

Module Orchestrator.

(** What one pass of the loop does, in order: the log line with the
    current epsilon and stage, then the covariance re-estimation, the
    rebuilt proposal, the resampling, the dump of the parameters and the
    stage increment. *)
Inductive event : Type :=
| Sample (stage : Z) (eps : R)
| Covariance
| Rebuild
| Resample
| Dump
| Advance.

Record loop_state : Type := mkLoop {
  lstage : Z;
  leps : R;
  lcalls : nat;
  levents : list event
}.

Inductive outcome : Type :=
| Finished (s : loop_state)
| Raised (e : pyerr) (s : loop_state)
| OutOfFuel (s : loop_state).

Section Loop.

Variable minimum_eps : R.
(** The epsilon computed by the [n]-th call of [_calc_epsilon] (directly
    at line 514 or through [calc_beta]) at the given stage; in adaptive
    mode it depends on the sampled population, hence on [n]. *)
Variable calc_eps : nat -> Z -> result R.
(** Whether [calc_covariance] raises at the given stage. *)
Variable calc_cov : Z -> result unit.

(** [while step.epsilon > step.minimum_eps: ...]. *)
Fixpoint stage_loop (fuel : nat) (s : loop_state) : outcome :=
  match fuel with
  | O => OutOfFuel s
  | S f =>
      if Rlt_dec minimum_eps (leps s) then
        let ev := levents s ++ [Sample (lstage s) (leps s)] in
        match calc_eps (lcalls s) (lstage s) with
        | Err e => Raised e (mkLoop (lstage s) (leps s) (S (lcalls s)) ev)
        | Ok eps =>
            if Rlt_dec eps minimum_eps then
              stage_loop f (mkLoop (lstage s) eps (S (lcalls s)) (ev ++ [Dump]))
            else
              match calc_cov (lstage s) with
              | Err e => Raised e (mkLoop (lstage s) eps (S (lcalls s)) ev)
              | Ok _ =>
                  stage_loop f (mkLoop (lstage s + 1) eps (S (lcalls s))
                                  (ev ++ [Covariance; Rebuild; Resample; Dump; Advance]))
              end
        end
      else Finished s
  end.

(** From line 514 ([step.epsilon = _calc_epsilon(...)]) to the exit of
    the while loop. *)
Definition run_stages (fuel : nat) (stage0 : Z) : outcome :=
  match calc_eps 0 stage0 with
  | Err e => Raised e (mkLoop stage0 0 1 [])
  | Ok e0 => stage_loop fuel (mkLoop stage0 e0 1 [])
  end.

End Loop.

(** The epsilons written in the log lines, in order. *)
Fixpoint emitted (ev : list event) : list R :=
  match ev with
  | [] => []
  | Sample _ e :: t => e :: emitted t
  | _ :: t => emitted t
  end.

Fixpoint non_increasing (l : list R) : Prop :=
  match l with
  | a :: ((b :: _) as t) => b <= a /\ non_increasing t
  | _ => True
  end.

End Orchestrator.

(** ** Systematic resampling [SMC_ABC.resample] *)

Module Resampling.

(** [np.cumsum]. *)
Fixpoint cumsum_from (acc : R) (l : list R) : list R :=
  match l with
  | [] => []
  | h :: t => (acc + h) :: cumsum_from (acc + h) t
  end.

Definition cumsum (l : list R) : list R := cumsum_from 0 l.

(** [while u[i] > cum_dist[j]: j += 1]; reading past the end of
    [cum_dist] raises [IndexError] ([None]).  The fuel is the length of
    [cum_dist], after which the index is out of range anyway. *)
Fixpoint walk (fuel : nat) (ui : R) (cum : list R) (j : nat) : option nat :=
  match nth_error cum j with
  | None => None
  | Some c =>
      if Rlt_dec c ui then
        match fuel with
        | O => None
        | S f => walk f ui cum (S j)
        end
      else Some j
  end.

(** The first loop: [j] is carried over from one [i] to the next and
    [N_childs[j] += 1]. *)
Fixpoint count_children (fuel : nat) (us cum : list R) (j : nat)
    (n_childs : list nat) : option (list nat) :=
  match us with
  | [] => Some n_childs
  | ui :: us' =>
      match walk fuel ui cum j with
      | None => None
      | Some j' =>
          match nth_error n_childs j' with
          | None => None
          | Some c =>
              match set_nth n_childs j' (S c) with
              | None => None
              | Some nc => count_children fuel us' cum j' nc
              end
          end
      end
  end.

(** [for j in range(indx, indx + count): outindx[j] = v]. *)
Fixpoint fill (out : list nat) (start count v : nat) : option (list nat) :=
  match count with
  | O => Some out
  | S c =>
      match set_nth out start v with
      | None => None
      | Some o => fill o (S start) c v
      end
  end.

(** The second loop over [parents]. *)
Fixpoint place (ps n_childs : list nat) (indx : nat) (out : list nat)
    : option (list nat) :=
  match ps with
  | [] => Some out
  | i :: ps' =>
      match nth_error n_childs i with
      | None => None
      | Some c =>
          match (if (0 <? c)%nat then fill out indx c i else Some out) with
          | None => None
          | Some o => place ps' n_childs (indx + c) o
          end
      end
  end.

(** [resample()] with [self.chains = chains], [self.weights = weights]
    and [np.random.rand() = r]. *)
Definition resample (chains : nat) (weights : list R) (r : R) : result (list nat) :=
  let parents := seq 0 chains in
  let cum := cumsum weights in
  let u := map (fun i => (INR i + r) / INR chains) parents in
  match count_children (length cum) u cum 0 (repeat 0%nat chains) with
  | None => Err IndexError
  | Some nc =>
      match place parents nc 0 (repeat 0%nat chains) with
      | None => Err IndexError
      | Some o => Ok o
      end
  end.

(** All the mass on index [k]. *)
Definition onehot (n k : nat) : list R :=
  map (fun i => if Nat.eqb i k then 1 else 0) (seq 0 n).

End Resampling.

(** ** Weighted covariance [SMC_ABC.calc_covariance] *)

Module Covariance.

Definition sum (l : list R) : R := fold_right Rplus 0 l.

(** Column [k] of a list of rows. *)
Definition column (m : list (list R)) (k : nat) : list R :=
  map (fun row => nth k row 0) m.

Definition transpose (m : list (list R)) : list (list R) :=
  map (column m) (seq 0 (length (hd [] m))).

(** [c * (1/fact)] once [fact] has been clamped at [0]: [1/0.] is [inf]. *)
Definition scale_by_inv (c fact : R) : xR :=
  if Rle_dec fact 0 then
    if Rlt_dec 0 c then PInf else if Rlt_dec c 0 then NInf else NaN
  else Fin (c / fact).

(** [fact = v1 - ddof * sum(w * aweights) / v1] with [ddof = 1] and
    [v1 = sum(w)]. *)
Definition ddof_factor (aw : list R) : R :=
  sum aw - sum (map (fun w => w * w) aw) / sum aw.

(** [np.cov(m, aweights=aw, bias=False, rowvar=0)] with [m] given by its
    rows.  With [rowvar=0] the array is transposed unless it has a single
    row; the rows of [X] are the variables. *)
Definition np_cov (m : list (list R)) (aw : list R) : result (list (list xR)) :=
  let X := match m with
           | [] => [[]]
           | [r] => [r]
           | _ => transpose m
           end in
  let nobs := length (hd [] X) in
  if negb (Nat.eqb (length aw) nobs) then Err RuntimeError
  else if existsb (fun w => if Rlt_dec w 0 then true else false) aw then Err ValueError
  else
    let v1 := sum aw in
    if Req_EM_T v1 0 then Err ZeroDivisionError
    else
      let avg := map (fun x => sum (map (fun '(w, xi) => w * xi) (combine aw x)) / v1) X in
      let fact0 := ddof_factor aw in
      let fact := if Rle_dec fact0 0 then 0 else fact0 in
      let Xc := map (fun '(x, a) => map (fun xi => xi - a) x) (combine X avg) in
      Ok (map (fun xk =>
             map (fun xl =>
                    scale_by_inv (sum (map (fun '(w, (a, b)) => a * w * b)
                                           (combine aw (combine xk xl)))) fact)
                 Xc) Xc).

Definition has_nan_or_inf (c : list (list xR)) : bool :=
  existsb (existsb (fun x => orb (isnan x) (isinf x))) c.

(** [calc_covariance()]: [np.atleast_2d(cov)] is the [d x d] matrix
    itself (for [d = 1] [np.cov] returns a 0-d array made 1 x 1 again). *)
Definition calc_covariance (array_population : list (list R)) (weights : list R)
    : result (list (list xR)) :=
  match np_cov array_population weights with
  | Err e => Err e
  | Ok cov => if has_nan_or_inf cov then Err ValueError else Ok cov
  end.

End Covariance.

(** ** [MultivariateNormalProposal.__init__] and SciPy's Cholesky *)

Module Proposal.

(** A square matrix as a function of (row, column). *)
Definition mat := nat -> nat -> R.

Definition entry (s : list (list R)) (i j : nat) : R := nth j (nth i s []) 0.

(** [s.shape] unpacked as [n, m]: only a rectangular two-dimensional
    array has a pair as its shape. *)
Definition shape2 (s : list (list R)) : option (nat * nat) :=
  match s with
  | [] => None
  | r :: _ =>
      if forallb (fun row => Nat.eqb (length row) (length r)) s
      then Some (length s, length r) else None
  end.

(** LAPACK [potrf] with [uplo='L'] only reads the lower triangle: the
    matrix it factors is the symmetric matrix of that triangle. *)
Definition lower_sym (s : list (list R)) : mat :=
  fun i j => if Nat.leb j i then entry s i j else entry s j i.

(** The Cholesky factorisation of an [n x n] symmetric matrix, column by
    column: the pivot [A 0 0] must be positive (otherwise the leading
    minor is not positive and [LinAlgError] is raised), the first column
    of [L] is [A i 0 / sqrt(A 0 0)] and the rest is the factor of the
    Schur complement. *)
Fixpoint chol (n : nat) (A : mat) : option mat :=
  match n with
  | O => Some (fun _ _ => 0)
  | S n' =>
      let a := A 0%nat 0%nat in
      if Rle_dec a 0 then None
      else
        let d := sqrt a in
        let Sc := fun i j => A (S i) (S j) - A (S i) 0%nat * A (S j) 0%nat / a in
        match chol n' Sc with
        | None => None
        | Some L' =>
            Some (fun i j =>
                    match i, j with
                    | O, O => d
                    | O, S _ => 0
                    | S i', O => A (S i') 0%nat / d
                    | S i', S j' => L' i' j'
                    end)
        end
  end.

(** [scipy.linalg.cholesky(s, lower=True)] for an [n x n] array. *)
Definition cholesky (n : nat) (s : list (list R)) : result mat :=
  match chol n (lower_sym s) with
  | None => Err LinAlgError
  | Some L => Ok L
  end.

Record proposal : Type := mkProposal { pn : nat; pchol : mat }.

Definition init (s : list (list R)) : result proposal :=
  match shape2 s with
  | None => Err ValueError
  | Some (n, m) =>
      if negb (Nat.eqb n m) then Err ValueError
      else
        match cholesky n s with
        | Err e => Err e
        | Ok L => Ok (mkProposal n L)
        end
  end.

(** Sums over [0 .. n-1], split at the first index. *)
Fixpoint rsum (n : nat) (f : nat -> R) : R :=
  match n with
  | O => 0
  | S n' => f 0%nat + rsum n' (fun i => f (S i))
  end.

(** [x^T A x] over the first [n] coordinates. *)
Definition quad (n : nat) (A : mat) (x : nat -> R) : R :=
  rsum n (fun i => rsum n (fun j => x i * A i j * x j)).

Definition symmetric (n : nat) (A : mat) : Prop :=
  forall i j, (i < n)%nat -> (j < n)%nat -> A i j = A j i.

Definition pos_def (n : nat) (A : mat) : Prop :=
  forall x : nat -> R, (exists i, (i < n)%nat /\ x i <> 0) -> 0 < quad n A x.

(** Symmetric at every index. *)
Definition sym_all (A : mat) : Prop := forall i j, A i j = A j i.

Definition lower_triangular (n : nat) (L : mat) : Prop :=
  forall i j, (i < j)%nat -> (j < n)%nat -> L i j = 0.

End Proposal.

(** ** The epsilon schedule in [SMC_ABC.__init__] (lines 194-198) *)

Module Init.

(** Python list objects by address. *)
Definition loc := nat.
Definition heap := loc -> list R.

Definition upd (h : heap) (l : loc) (v : list R) : heap :=
  fun l' => if Nat.eqb l' l then v else h l'.

Record schedule_attrs : Type := mkAttrs {
  minimum_eps : R;
  epsilons : option loc;
  iqr_scale : R
}.

(** [self.minimum_eps = minimum_eps; self.epsilons = epsilons;
    if epsilons is not None: self.epsilons.append(minimum_eps);
    self.iqr_scale = iqr_scale]. *)
Definition init_schedule (h : heap) (eps_arg : option loc) (min_eps iqr : R)
    : heap * schedule_attrs :=
  let attrs := mkAttrs min_eps eps_arg iqr in
  match epsilons attrs with
  | None => (h, attrs)
  | Some l => (upd h l (h l ++ [minimum_eps attrs]), attrs)
  end.

End Init.

(** ** Exceptions outside [pyerr] and a list map that stops at the first error *)

Inductive pyexc : Type :=
| PyErr (e : pyerr)
| TypeError
| KeyError.

Inductive eresult (A : Type) : Type :=
| EOk (a : A)
| ERaise (e : pyexc).
Arguments EOk {A} a.
Arguments ERaise {A} e.

(** [[f(x) for x in l]] where [f] may raise. *)
Fixpoint map_result {A B : Type} (f : A -> result B) (l : list A) : result (list B) :=
  match l with
  | [] => Ok []
  | x :: t =>
      match f x with
      | Err e => Err e
      | Ok y =>
          match map_result f t with
          | Err e => Err e
          | Ok ys => Ok (y :: ys)
          end
      end
  end.

(** ** [tune(acc_rate)] (lines 771-786) *)

Module Tune.

Definition tune (acc_rate : R) : R :=
  let a := 1 / 9 in
  let b := 8 / 9 in
  (a + b * acc_rate) ^ 2.

End Tune.

(** ** [sum_stats(data, sum_stat)] (lines 637-665) *)

Module SumStats.

Import String.StringSyntax.
Local Open Scope string_scope.

(** A two-dimensional array: its shape and its entries in row-major
    order. *)
Record array2 : Type := mkArray2 {
  shape0 : nat;
  shape1 : nat;
  flat : list R
}.

Definition rsum_list (l : list R) : R := fold_right Rplus 0 l.

(** [data.mean()]: the mean of an empty array is [nan]. *)
Definition mean (a : array2) : xR :=
  match flat a with
  | [] => NaN
  | l => Fin (rsum_list l / INR (length l))
  end.

(** [data.var()] (ddof 0). *)
Definition var (a : array2) : xR :=
  match flat a with
  | [] => NaN
  | l =>
      let m := rsum_list l / INR (length l) in
      Fin (rsum_list (map (fun x => (x - m) ^ 2) l) / INR (length l))
  end.

(** [data.std()] = [sqrt(data.var())]. *)
Definition std (a : array2) : xR :=
  match var a with
  | Fin v => Fin (sqrt v)
  | x => x
  end.

(** An entry of [sum_stat]: a string or a Python function. *)
Inductive stat : Type :=
| SName (s : String.string)
| SFun (f : array2 -> xR).

(** The [if/elif/else] of the loop body: a string other than the three
    names is called, which raises [TypeError]. *)
Definition eval_stat (data : array2) (st : stat) : eresult xR :=
  match st with
  | SName s =>
      if String.eqb s "mean" then EOk (mean data)
      else if String.eqb s "std" then EOk (std data)
      else if String.eqb s "var" then EOk (var data)
      else ERaise TypeError
  | SFun f => EOk (f data)
  end.

(** [for i, stat in enumerate(sum_stat): sum_stat_vector[i, 0] = ...]:
    the right-hand side is evaluated before the element is written. *)
Fixpoint fill_stats (data : array2) (i : nat) (l : list stat) (v : list (list xR))
    : eresult (list (list xR)) :=
  match l with
  | [] => EOk v
  | st :: l' =>
      match eval_stat data st with
      | ERaise e => ERaise e
      | EOk x =>
          match nth_error v i with
          | None => ERaise (PyErr IndexError)
          | Some row =>
              match set_nth row 0 x with
              | None => ERaise (PyErr IndexError)
              | Some row' =>
                  match set_nth v i row' with
                  | None => ERaise (PyErr IndexError)
                  | Some v' => fill_stats data (S i) l' v'
                  end
              end
          end
      end
  end.

(** [sum_stats(data, sum_stat)]; [len(None)] raises [TypeError]. *)
Definition sum_stats (data : array2) (sum_stat : option (list stat))
    : eresult (list (list xR)) :=
  match sum_stat with
  | None => ERaise TypeError
  | Some l =>
      fill_stats data 0 l (repeat (repeat (Fin 0) (shape1 data)) (length l))
  end.

End SumStats.

(** ** [_sample] and [_iter_sample] (lines 668-712) *)

Module IterSample.

Section Chain.

(** Points, the [out_list] of one step, and [step.step]. *)
Variables (Pt Out : Type).
Variable step_fn : Pt -> Pt * Out.





End Chain.

End IterSample.

(** ** The work list of [_iter_parallel_chains] (lines 732-768) and
    [SMC_ABC.get_chain_previous_lpoint] (lines 331-351) *)

Module Parallel.

(** The fields of a work tuple that depend on the chain:
    [(draws, step, start, trace, chain, False, model, rseed, chain_idx)]. *)
Record work : Type := mkWork {
  wdraws : Z;
  wstart : Scheduler.point;
  wchain : nat;
  wseed : Z;
  wchain_idx : nat
}.

(** [x_chains = range(chains)] when [None]; [random_seeds] has one seed
    per chain; [zip] stops at the shortest list. *)
Definition work_items (draws : Z) (population : list Scheduler.point)
    (resampling_indexes : list nat) (chains : nat) (x_chains : option (list nat))
    (random_seeds : list Z) : result (list work) :=
  let xs := match x_chains with None => seq 0 chains | Some l => l end in
  let chain_idx := seq 0 (length xs) in
  map_result (fun '(chain, rseed, ci) =>
                match py_index resampling_indexes (Z.of_nat chain) with
                | Err e => Err e
                | Ok r =>
                    match py_index population (Z.of_nat r) with
                    | Err e => Err e
                    | Ok pt => Ok (mkWork draws pt chain rseed ci)
                    end
                end)
             (combine (combine xs random_seeds) chain_idx).


End Parallel.

(** ** [choose_proposal], the proposal set up by [__init__] (lines 166-175)
    and [MultivariateNormalProposal.__call__] (lines 51-57) *)

Module Choose.

Import String.StringSyntax.
Local Open Scope string_scope.

(** The [scale] argument: a 2-D array or a 1-D [np.ones(d)]. *)
Inductive scale : Type :=
| SMatrix (s : list (list R))
| SVector (v : list R).

(** [MultivariateNormalProposal(s)]: [n, m = s.shape] fails for a 1-D
    array. *)
Definition mvn_proposal (sc : scale) : result Proposal.proposal :=
  match sc with
  | SMatrix s => Proposal.init s
  | SVector _ => Err ValueError
  end.

Definition proposal_dists : list (String.string * (scale -> result Proposal.proposal)) :=
  [("MultivariateNormal", mvn_proposal)].

(** [proposal_dists[proposal_name](scale)]. *)
Definition choose_proposal (proposal_name : String.string) (sc : scale)
    : eresult Proposal.proposal :=
  match find (fun kv => String.eqb (fst kv) proposal_name) proposal_dists with
  | None => ERaise KeyError
  | Some (_, ctor) =>
      match ctor sc with
      | Err e => ERaise (PyErr e)
      | Ok p => EOk p
      end
  end.

(** [np.eye(d)]. *)
Definition eye (d : nat) : list (list R) :=
  map (fun i => map (fun j => if Nat.eqb i j then 1 else 0) (seq 0 d)) (seq 0 d).

(** The proposal part of [__init__]: the value given to [self.covariance]
    ([None] when it is not assigned) and [self.proposal_dist]; [d] is
    [sum(v.dsize for v in self.vars)]. *)
Definition init_proposal (covariance : option scale) (proposal_name : String.string)
    (d : nat) : option (list (list R)) * eresult Proposal.proposal :=
  match covariance with
  | None =>
      if String.eqb proposal_name "MultivariateNormal"
      then (Some (eye d), choose_proposal proposal_name (SMatrix (eye d)))
      else (None, choose_proposal proposal_name (SVector (repeat 1 d)))
  | Some c => (None, choose_proposal proposal_name c)
  end.

(** [proposal(num_draws)] with the standard normal draws [b] of shape
    [(n, num_draws)]: [np.dot(self.chol, b).T], one row per draw. *)
Definition call_many (p : Proposal.proposal) (num_draws : nat) (b : nat -> nat -> R)
    : list (list R) :=
  map (fun d =>
         map (fun i => Proposal.rsum (Proposal.pn p) (fun t => Proposal.pchol p i t * b t d))
             (seq 0 (Proposal.pn p)))
      (seq 0 num_draws).


End Choose.

(** ** The argument checks of [sample_smc_abc] (lines 471-487) *)

Module Validate.

(** Python's [needle in hay] on strings. *)
Fixpoint contains (needle hay : String.string) : bool :=
  if String.prefix needle hay then true
  else
    match hay with
    | String.EmptyString => false
    | String.String _ t => contains needle t
    end.

(** [(chains / float(cores)).is_integer()], for chain counts where the
    float division is exact. *)
Definition whole_division (chains cores : nat) : bool :=
  Nat.eqb (Nat.modulo chains cores) 0.

(** The checks from [homepath] to the likelihood variable; on success the
    population is [start] when given. *)
Definition validate (homepath : option String.string) (cores step_chains : nat)
    (start : option (list Scheduler.point)) (deterministic_names : list String.string)
    (likelihood_name : String.string) : eresult (option (list Scheduler.point)) :=
  match homepath with
  | None => ERaise TypeError
  | Some _ =>
      if (1 <? cores)%nat && negb (whole_division step_chains cores) then ERaise TypeError
      else
        match start with
        | Some s =>
            if negb (Nat.eqb (length s) step_chains) then ERaise TypeError
            else if existsb (fun nm => contains likelihood_name nm) deterministic_names
                 then EOk (Some s) else ERaise TypeError
        | None =>
            if existsb (fun nm => contains likelihood_name nm) deterministic_names
            then EOk None else ERaise TypeError
        end
  end%bool.

End Validate.

(** * Concrete inputs and auxiliary predicates *)

(** The llk-index entry of the model output at the candidate of attempt
    [a] exists and is not finite: the attempt is rejected. *)
Definition rejected_at (logp_forw : list R -> list xR) (proposal_draw : nat -> R)
    (q0 : list R) (st : Astep.smc_state) (a : nat) : Prop :=
  exists v, nth_error (logp_forw (Astep.candidate proposal_draw q0 a)) (Astep.llk_index st) = Some v
            /\ isfinite v = false.

(** [N_childs] with [c] children on [k] and none elsewhere, among [n]. *)
Definition onehot_children (n k c : nat) : list nat :=
  map (fun i => if Nat.eqb i k then c else 0%nat) (seq 0 n).

(** The cumulative weights of [onehot n k]. *)
Definition cum_onehot_at (n k : nat) : list R :=
  map (fun i => if Nat.ltb i k then 0 else 1) (seq 0 n).

(** A target mass that the walk over [cum_onehot_at n k] sends to [k]. *)
Definition good_target_at (k : nat) (ui : R) : Prop := ui < 1 /\ (k = 0%nat \/ 0 < ui).

(** A model whose log-density is never finite. *)
Definition never_finite (q : list R) : list xR := [NInf].

Definition st_stage1 : Astep.smc_state :=
  Astep.mkState 1 1 0 0 [[Fin 0]] [[1]] 1 [false].

(** A model whose log-density is [0] everywhere. *)
Definition flat_model (q : list R) : list xR := [Fin 0].

Definition st_discrete : Astep.smc_state :=
  Astep.mkState 1 1 0 0 [[Fin 0]] [[1]] 1 [true].

Definition two_points : list Scheduler.point := [fun _ => 0; fun _ => 2].

Import String.StringSyntax.
Local Open Scope string_scope.
Definition var_x : String.string := "x".
Local Close Scope string_scope.

Definition loop_start : Orchestrator.loop_state := Orchestrator.mkLoop 0 1 1 [].

(** The fixed schedule [[2; 3]] after [__init__] appended
    [minimum_eps = 1/2]. *)
Definition fixed_schedule : nat -> Z -> result R :=
  fun _ stage => py_index [2; 3; 1/2] stage.

(** Two chains in five dimensions, with equal weights. *)
Definition pop_2x5 : list (list R) := [[0; 0; 0; 0; 0]; [1; 2; 3; 4; 5]].
Definition w_2 : list R := [1/2; 1/2].

Definition id2 : list (list R) := [[1; 0]; [0; 1]].

Definition s_skew : list (list R) := [[1; 5]; [0; 1]].

(** The number of children of the parents [ps] in [nc]. *)
Definition psum (nc : list nat) (ps : list nat) : nat :=
  list_sum (map (fun i => nth i nc 0%nat) ps).

(** The entries of the identity matrix. *)
Definition kdelta (i j : nat) : R := if Nat.eqb i j then 1 else 0.

(** A [1 x 2] data array. *)
Definition stat_data : SumStats.array2 := SumStats.mkArray2 1 2 [2; 4].

(** Target [t] falls in bin [i] of the cumulative weights [cum]:
    [cum[i-1] < t <= cum[i]], with no lower bound for the first bin. *)
Definition in_bin (cum : list R) (i : nat) (t : R) : bool :=
  (Nat.ltb i (length cum) &&
   match i with
   | O => true
   | S i' => if Rlt_dec (nth i' cum 0) t then true else false
   end &&
   (if Rle_dec t (nth i cum 0) then true else false))%bool.

(** * Properties *)

(** ** The epsilon schedule set up by [__init__] *)

(** C10: with a caller-supplied list at address [l], [__init__] stores
    that same object as [self.epsilons] and appends [minimum_eps] to it
    in place (the caller sees [old ++ [minimum_eps]], no other list
    changes); with [epsilons = None] the schedule stays [None] and the
    heap is untouched. *)
Theorem init_appends_minimum_eps :
  forall (h : Init.heap) (eps_arg : option Init.loc) (min_eps iqr : R),
    let '(h', attrs) := Init.init_schedule h eps_arg min_eps iqr in
    Init.epsilons attrs = eps_arg /\
    Init.minimum_eps attrs = min_eps /\
    match eps_arg with
    | Some l => h' l = h l ++ [min_eps] /\ (forall l', l' <> l -> h' l' = h l')
    | None => h' = h
    end.
Proof.
  intros h [l|] min_eps iqr; simpl; repeat split; auto.
  - unfold Init.upd. rewrite Nat.eqb_refl. reflexivity.
  - intros l' Hl'. unfold Init.upd. apply Nat.eqb_neq in Hl'. rewrite Hl'. reflexivity.
Qed.

(** ** The mutation kernel *)

Section AstepFacts.

Import Astep.

Lemma set_nth_lt {A : Type} (l : list A) (n : nat) (v : A) :
  (n < length l)%nat ->
  exists l', set_nth l n v = Some l' /\ nth_error l' n = Some v /\ length l' = length l.
Proof.
  revert n; induction l as [|h t IH]; intros n Hn; simpl in Hn; [lia|].
  destruct n as [|n]; simpl.
  - exists (v :: t); auto.
  - destruct (IH n) as (t' & Ht & Hv & Hlen); [lia|].
    rewrite Ht. exists (h :: t'); simpl; auto.
Qed.

Lemma nth_error_lt_some {A : Type} (l : list A) (n : nat) :
  (n < length l)%nat -> exists v, nth_error l n = Some v.
Proof.
  intros Hn. destruct (nth_error l n) eqn:E; [eauto|].
  apply nth_error_None in E. lia.
Qed.

Variable logp_forw : list R -> list xR.
Variable proposal_draw : nat -> R.
Variable mvn_logpdf : list (list R) -> list R -> xR.

Local Abbreviation rejected := (rejected_at logp_forw proposal_draw).


Lemma mutate_all_rejected (q0 : list R) (st : smc_state) (l : list xR) :
  nth_error (chain_previous_lpoint st) (chain_index st) = Some l ->
  forall b a last,
    (forall a', (a <= a' < a + b)%nat -> rejected q0 st a') ->
    (b = 0%nat -> last = Some (q0, l)) ->
    mutate logp_forw proposal_draw mvn_logpdf b a q0 st last = Ok (q0, l, st).
Proof.
  intros Hprev b; induction b as [|b IH]; intros a last Hrej Hlast.
  - simpl. rewrite Hlast by reflexivity. reflexivity.
  - simpl. destruct (Hrej a) as (v & Hv & Hfin); [lia|].
    rewrite Hv, Hfin, Hprev.
    apply IH; [|intros _; reflexivity].
    intros a' Ha'. apply Hrej. lia.
Qed.

Lemma mutate_step_rejected (q0 : list R) (st : smc_state) (b a : nat) last v l :
  nth_error (logp_forw (candidate proposal_draw q0 a)) (llk_index st) = Some v ->
  isfinite v = false ->
  nth_error (chain_previous_lpoint st) (chain_index st) = Some l ->
  mutate logp_forw proposal_draw mvn_logpdf (S b) a q0 st last
    = mutate logp_forw proposal_draw mvn_logpdf b (S a) q0 st (Some (q0, l)).
Proof. intros Hv Hfin Hl. simpl. rewrite Hv, Hfin, Hl. reflexivity. Qed.

Lemma mutate_first_accepted (q0 : list R) (st : smc_state) (p : R) (c : nat) :
  (chain_index st < length (chain_previous_lpoint st))%nat ->
  forall b a last,
    (forall a', (a <= a' < a + b)%nat -> rejected q0 st a') ->
    nth_error (logp_forw (candidate proposal_draw q0 (a + b))) (llk_index st) = Some (Fin p) ->
    exists l' prev',
      mutate logp_forw proposal_draw mvn_logpdf (S (b + c)) a q0 st last
        = Ok (candidate proposal_draw q0 (a + b), l', set_previous st prev')
      /\ nth_error l' (llk_index st)
           = Some (xexp (xsub (Fin p) (mvn_logpdf (scale_mat (covariance st) (scaling st))
                                                  (candidate proposal_draw q0 (a + b)))))
      /\ nth_error prev' (chain_index st) = Some l'.
Proof.
  intros Hci b; induction b as [|b IH]; intros a last Hrej Hacc.
  - rewrite Nat.add_0_r in *. simpl Nat.add. simpl mutate. rewrite Hacc. cbn -[xsub xexp set_nth].
    assert (Hk : (llk_index st < length (logp_forw (candidate proposal_draw q0 a)))%nat).
    { apply nth_error_Some. rewrite Hacc. discriminate. }
    destruct (set_nth_lt _ _
               (xexp (xsub (Fin p) (mvn_logpdf (scale_mat (covariance st) (scaling st))
                                               (candidate proposal_draw q0 a)))) Hk)
      as (l' & Hl' & Hv & _).
    rewrite Hl'.
    destruct (set_nth_lt _ _ l' Hci) as (prev' & Hp & Hpv & _).
    rewrite Hp. exists l', prev'. auto.
  - destruct (Hrej a) as (v & Hv & Hfin); [lia|].
    destruct (nth_error_lt_some _ _ Hci) as (l & Hl).
    change (S (S b + c)) with (S (S (b + c))).
    rewrite (mutate_step_rejected q0 st (S (b + c)) a last v l Hv Hfin Hl).
    replace (a + S b)%nat with (S a + b)%nat in Hacc |- * by lia.
    apply IH; [|exact Hacc].
    intros a' Ha'. apply Hrej. lia.
Qed.

End AstepFacts.

(** C8: in a stage other than 0, when all 5000 attempts are rejected
    (the llk-index entry of [logp_forw] is never finite), [astep] returns
    the unchanged position [q0] with [chain_previous_lpoint[chain_index]]
    and leaves the state unchanged; no exception is raised. *)
Theorem astep_budget_exhausted :
  forall logp_forw proposal_draw mvn_logpdf (st : Astep.smc_state) (q0 : list R) (l : list xR),
    Astep.stage st <> 0%Z ->
    nth_error (Astep.chain_previous_lpoint st) (Astep.chain_index st) = Some l ->
    (forall a, (a < 5000)%nat -> rejected_at logp_forw proposal_draw q0 st a) ->
    Astep.astep logp_forw proposal_draw mvn_logpdf st q0 = Ok (q0, l, st).
Proof.
  intros logp_forw proposal_draw mvn_logpdf st q0 l Hst Hprev Hrej.
  unfold Astep.astep. apply Z.eqb_neq in Hst. rewrite Hst.
  apply (mutate_all_rejected logp_forw proposal_draw mvn_logpdf q0 st l Hprev).
  - intros a' Ha'. apply Hrej. lia.
  - discriminate.
Qed.

Lemma astep_budget_exhausted_witness :
  Astep.astep never_finite (fun _ => 1) (fun _ _ => Fin 0) st_stage1 [0] = Ok ([0], [Fin 0], st_stage1).
Proof.
  apply (astep_budget_exhausted never_finite (fun _ => 1) (fun _ _ => Fin 0) st_stage1 [0] [Fin 0]).
  - discriminate.
  - reflexivity.
  - intros a _. exists NInf. split; reflexivity.
Defined.

(** C1 (as the code does it): in a stage other than 0, [astep] accepts
    the first of the 5000 candidates [q0 + delta] whose llk-index entry
    of [logp_forw] is finite; it returns that candidate, writes
    [exp(logp_prior - logp_proposal)] at the llk index and stores the
    same list as [chain_previous_lpoint[chain_index]]; the later
    attempts are not made. *)
Theorem astep_accepts_first_finite :
  forall logp_forw proposal_draw mvn_logpdf (st : Astep.smc_state) (q0 : list R) (a : nat) (p : R),
    Astep.stage st <> 0%Z ->
    (a < 5000)%nat ->
    (Astep.chain_index st < length (Astep.chain_previous_lpoint st))%nat ->
    (forall a', (a' < a)%nat -> rejected_at logp_forw proposal_draw q0 st a') ->
    nth_error (logp_forw (Astep.candidate proposal_draw q0 a)) (Astep.llk_index st) = Some (Fin p) ->
    exists l' prev',
      Astep.astep logp_forw proposal_draw mvn_logpdf st q0
        = Ok (Astep.candidate proposal_draw q0 a, l', Astep.set_previous st prev')
      /\ nth_error l' (Astep.llk_index st)
           = Some (xexp (xsub (Fin p)
                    (mvn_logpdf (Astep.scale_mat (Astep.covariance st) (Astep.scaling st))
                                (Astep.candidate proposal_draw q0 a))))
      /\ nth_error prev' (Astep.chain_index st) = Some l'.
Proof.
  intros logp_forw proposal_draw mvn_logpdf st q0 a p Hst Ha Hci Hrej Hacc.
  unfold Astep.astep. apply Z.eqb_neq in Hst. rewrite Hst.
  replace 5000%nat with (S (a + (4999 - a))) by lia.
  apply (mutate_first_accepted logp_forw proposal_draw mvn_logpdf q0 st p (4999 - a) Hci a 0 None).
  - intros a' Ha'. apply Hrej. lia.
  - exact Hacc.
Qed.

Lemma astep_accepts_first_finite_witness :
  exists l' prev',
    Astep.astep (fun _ => [Fin 0]) (fun _ => 1) (fun _ _ => Fin 0) st_stage1 [0]
      = Ok (Astep.candidate (fun _ => 1) [0] 0, l', Astep.set_previous st_stage1 prev')
    /\ nth_error l' 0 = Some (xexp (xsub (Fin 0) (Fin 0)))
    /\ nth_error prev' 0 = Some l'.
Proof.
  apply (astep_accepts_first_finite (fun _ => [Fin 0]) (fun _ => 1) (fun _ _ => Fin 0)
           st_stage1 [0] 0 0).
  - discriminate.
  - lia.
  - simpl. lia.
  - intros a' Ha'. lia.
  - reflexivity.
Defined.

(** C1 fails as stated: with tolerance [epsilon = 1] (the state's
    [epsilon]), an identity simulator, the mean as summary statistic
    and the observed statistic [0], the candidate [q0 + delta = [1]] is
    at distance [|1 - 0| = 1], not below epsilon, and is accepted; and
    the stored auxiliary term is [exp(0 - 0) = 1], not [0 - 0]. *)
Lemma astep_accepts_without_distance_test :
  Astep.astep flat_model (fun _ => 1) (fun _ _ => Fin 0) st_stage1 [0]
    = Ok ([0 + 1], [Fin (exp (0 - 0))], Astep.set_previous st_stage1 [[Fin (exp (0 - 0))]])
  /\ Astep.epsilon st_stage1 = 1
  /\ ~ (Rabs ((0 + 1) - 0) < Astep.epsilon st_stage1)
  /\ exp (0 - 0) <> 0 - 0.
Proof.
  split; [reflexivity|]. split; [reflexivity|]. split.
  - simpl. rewrite Rplus_0_l, Rminus_0_r, Rabs_R1. lra.
  - rewrite Rminus_0_r, exp_0. lra.
Qed.

(** C5 (code bug): for a single discrete dimension ([discrete = [true]])
    the perturbation [0.3] is added to [q0 = [0]] unrounded; [astep]
    never reads the mask. *)
Lemma astep_discrete_delta_not_rounded :
  Astep.astep flat_model (fun _ => 3 / 10) (fun _ _ => Fin 0) st_discrete [0]
    = Ok ([0 + 3 / 10], [Fin (exp (0 - 0))], Astep.set_previous st_discrete [[Fin (exp (0 - 0))]])
  /\ Astep.discrete st_discrete = [true]
  /\ ~ (exists z : Z, IZR z = (0 + 3 / 10) - 0).
Proof.
  split; [reflexivity|]. split; [reflexivity|].
  intros (z & Hz). rewrite Rplus_0_l, Rminus_0_r in Hz.
  destruct (Z_le_gt_dec z 0) as [Hle|Hgt].
  - apply IZR_le in Hle. lra.
  - assert (Hge : (1 <= z)%Z) by lia. apply IZR_le in Hge. lra.
Qed.

(** ** Importance weights *)

Lemma sum_repeat (c : R) (n : nat) : Scheduler.sum (repeat c n) = INR n * c.
Proof.
  induction n as [|n IH]; [simpl; ring|].
  change (Scheduler.sum (repeat c (S n))) with (c + Scheduler.sum (repeat c n)).
  rewrite IH, S_INR. ring.
Qed.

Lemma map_const_repeat {A B : Type} (c : B) (l : list A) :
  map (fun _ => c) l = repeat c (length l).
Proof. induction l as [|h t IH]; simpl; congruence. Qed.

Lemma map_repeat {A B : Type} (f : A -> B) (x : A) (n : nat) :
  map f (repeat x n) = repeat (f x) n.
Proof. induction n as [|n IH]; simpl; congruence. Qed.

(** C2 (as the code does it): [calc_beta] overwrites the likelihoods
    with ones and returns the uniform weights [1/chains] for every
    chain, which sum to 1 and do not depend on the accumulated values,
    together with the epsilon of [_calc_epsilon]. *)
Theorem calc_beta_uniform_weights :
  forall (likelihoods : list R) epsilons population vars iqr_scale stage e,
    (0 < length likelihoods)%nat ->
    Scheduler.calc_epsilon epsilons population vars iqr_scale stage = Ok e ->
    Scheduler.calc_beta likelihoods epsilons population vars iqr_scale stage
      = Ok (repeat (1 / INR (length likelihoods)) (length likelihoods), e,
            repeat 1 (length likelihoods))
    /\ Scheduler.sum (repeat (1 / INR (length likelihoods)) (length likelihoods)) = 1.
Proof.
  intros lik epss pop vars iqr stage e Hn He.
  assert (HnR : INR (length lik) <> 0) by (apply not_0_INR; lia).
  unfold Scheduler.calc_beta. rewrite He, map_const_repeat, map_repeat, sum_repeat.
  split.
  - rewrite Rmult_1_r. reflexivity.
  - rewrite sum_repeat. field. exact HnR.
Qed.

Lemma calc_beta_uniform_weights_witness :
  Scheduler.calc_beta [0; 1] (Some [2]) [] [] 1 0
    = Ok (repeat (1 / INR 2) 2, 2, repeat 1 2)
  /\ Scheduler.sum (repeat (1 / INR 2) 2) = 1.
Proof.
  apply (calc_beta_uniform_weights [0; 1] (Some [2]) [] [] 1 0 2).
  - simpl. lia.
  - reflexivity.
Defined.

(** C2 fails as stated: for the log-weights [[0; 1]] the code's weights
    are [[1/2; 1/2]], while the stabilised softmax gives the first chain
    [exp(-1) / (exp(-1) + 1)], which is not [1/2]. *)
Lemma calc_beta_not_softmax :
  Scheduler.calc_beta [0; 1] (Some [2]) [] [] 1 0 = Ok ([1 / (1 + (1 + 0)); 1 / (1 + (1 + 0))], 2, [1; 1])
  /\ nth 0 (Scheduler.spec_softmax [0; 1]) 0 <> 1 / (1 + (1 + 0)).
Proof.
  split; [reflexivity|].
  unfold Scheduler.spec_softmax, Scheduler.list_max. simpl.
  rewrite Rmax_right by lra.
  replace (0 - 1) with (-1) by ring. rewrite Rminus_diag, exp_0.
  assert (He : 0 < exp (-1) < 1).
  { split; [apply exp_pos|]. rewrite <- exp_0. apply exp_increasing. lra. }
  unfold Scheduler.sum. simpl. intros Heq.
  assert (Hpos : exp (-1) + (1 + 0) <> 0) by lra.
  field_simplify in Heq; [|lra].
  apply (Rmult_eq_compat_r (2 * (exp (-1) + 1))) in Heq.
  field_simplify in Heq; lra.
Qed.

(** ** The tolerance scheduler *)

Lemma Int_part_one : Int_part 1 = 1%Z.
Proof. symmetry. apply Int_part_spec. simpl. lra. Qed.

Lemma clip_lo (x lo hi : R) : x <= lo -> lo <= hi -> Scheduler.clip x lo hi = lo.
Proof.
  intros H1 H2. unfold Scheduler.clip.
  rewrite Rmax_right by lra. apply Rmin_left. lra.
Qed.

Lemma clip_hi (x lo hi : R) : hi <= x -> lo <= hi -> Scheduler.clip x lo hi = hi.
Proof.
  intros H1 H2. unfold Scheduler.clip.
  rewrite Rmax_left by lra. apply Rmin_right. lra.
Qed.

Lemma quantile_two_first (a b : R) : Scheduler.quantile_sorted [a; b] (1/4) = a.
Proof.
  unfold Scheduler.quantile_sorted. cbv zeta.
  replace (INR (length [a; b])) with 2 by (simpl; ring).
  unfold Scheduler.alphap, Scheduler.betap.
  rewrite (clip_lo (2 * (1/4) + (2/5 + 1/4 * (1 - 2/5 - 2/5))) 1 (2 - 1)) by lra.
  rewrite Int_part_one.
  rewrite (clip_lo (2 * (1/4) + (2/5 + 1/4 * (1 - 2/5 - 2/5)) - IZR 1) 0 1) by (simpl; lra).
  simpl. ring.
Qed.

Lemma quantile_two_third (a b : R) : Scheduler.quantile_sorted [a; b] (3/4) = b.
Proof.
  unfold Scheduler.quantile_sorted. cbv zeta.
  replace (INR (length [a; b])) with 2 by (simpl; ring).
  unfold Scheduler.alphap, Scheduler.betap.
  rewrite (clip_hi (2 * (3/4) + (2/5 + 3/4 * (1 - 2/5 - 2/5))) 1 (2 - 1)) by lra.
  replace (2 - 1) with 1 by ring.
  rewrite Int_part_one.
  rewrite (clip_hi (2 * (3/4) + (2/5 + 3/4 * (1 - 2/5 - 2/5)) - IZR 1) 0 1) by (simpl; lra).
  simpl. ring.
Qed.

(** On a two-point sample [mquantiles] returns the smaller value as the
    first quartile and the larger one as the third quartile. *)
Lemma mquantiles_two (a b : R) :
  a <= b -> Scheduler.mquantiles [a; b] [1/4; 3/4] = Ok [a; b].
Proof.
  intros Hab. unfold Scheduler.mquantiles, Scheduler.isort. simpl.
  destruct (Rle_dec a b) as [_|Hn]; [|lra].
  simpl. rewrite quantile_two_first, quantile_two_third. reflexivity.
Qed.

(** C3 (as the code does it): in adaptive mode ([epsilons = None]) and
    for a non-empty flattened population, [_calc_epsilon] returns
    [|q75 - q25| * iqr_scale] for the quartiles that [mquantiles]
    computes on the flattened population, at every stage: the stage
    does not enter the value. *)
Theorem calc_epsilon_adaptive_undamped :
  forall (population : list Scheduler.point) (vars : list String.string) (iqr_scale : R) (stage : Z),
    flat_map (fun d => map d vars) population <> [] ->
    exists q25 q75,
      Scheduler.mquantiles (flat_map (fun d => map d vars) population) [1/4; 3/4] = Ok [q25; q75]
      /\ Scheduler.calc_epsilon None population vars iqr_scale stage = Ok (Rabs (q75 - q25) * iqr_scale)
      /\ Scheduler.calc_epsilon None population vars iqr_scale 0 = Ok (Rabs (q75 - q25) * iqr_scale).
Proof.
  intros pop vars iqr stage Hne.
  unfold Scheduler.calc_epsilon, Scheduler.mquantiles.
  destruct (Scheduler.isort (flat_map (fun d => map d vars) pop)) as [|x [|y t]] eqn:Hs.
  - exfalso. apply Hne.
    destruct (flat_map (fun d => map d vars) pop) as [|h t]; [reflexivity|].
    simpl in Hs. destruct (Scheduler.isort t) as [|h' t']; simpl in Hs;
      [discriminate| destruct (Rle_dec h h'); discriminate].
  - exists x, x. simpl. auto.
  - simpl. eexists; eexists; eauto.
Qed.

Lemma calc_epsilon_adaptive_undamped_witness :
  exists q25 q75,
    Scheduler.mquantiles (flat_map (fun d => map d [var_x]) two_points) [1/4; 3/4] = Ok [q25; q75]
    /\ Scheduler.calc_epsilon None two_points [var_x] (1/2) 2 = Ok (Rabs (q75 - q25) * (1/2))
    /\ Scheduler.calc_epsilon None two_points [var_x] (1/2) 0 = Ok (Rabs (q75 - q25) * (1/2)).
Proof.
  apply (calc_epsilon_adaptive_undamped two_points [var_x] (1/2) 2).
  simpl. discriminate.
Defined.

(** C3 fails as stated: for the population [x = 0], [x = 2],
    [iqr_scale = 1/2] and stage 2, the code's epsilon is
    [|2 - 0| * 1/2 = 1], not [1 * 2^(-1/4)]. *)
Lemma calc_epsilon_stage_not_damped :
  Scheduler.calc_epsilon None two_points [var_x] (1/2) 2 = Ok 1
  /\ 1 <> Rabs (2 - 0) * (1/2) * Rpower (IZR 2) (- (1/4)).
Proof.
  split.
  - unfold Scheduler.calc_epsilon. simpl flat_map.
    rewrite mquantiles_two by lra. f_equal.
    rewrite Rminus_0_r, Rabs_right by lra. field.
  - rewrite Rminus_0_r, Rabs_right by lra.
    replace (2 * (1/2)) with 1 by field. rewrite Rmult_1_l.
    unfold Rpower. intros H. apply (f_equal ln) in H. rewrite ln_exp, ln_1 in H.
    assert (Hln : ln (IZR 2) <> 0) by (apply ln_neq_0; simpl; lra).
    apply Hln. lra.
Qed.

(** ** The stage loop *)

Section LoopFacts.

Import Orchestrator.

Variable minimum_eps : R.
Variable calc_eps : nat -> Z -> result R.
Variable calc_cov : Z -> result unit.

Lemma stage_loop_exit (f : nat) (s : loop_state) :
  ~ minimum_eps < leps s -> stage_loop minimum_eps calc_eps calc_cov (S f) s = Finished s.
Proof.
  intros H. simpl. destruct (Rlt_dec minimum_eps (leps s)); [contradiction|reflexivity].
Qed.

Lemma stage_loop_continue (f : nat) (s : loop_state) (e : R) (u : unit) :
  minimum_eps < leps s ->
  calc_eps (lcalls s) (lstage s) = Ok e ->
  ~ e < minimum_eps ->
  calc_cov (lstage s) = Ok u ->
  stage_loop minimum_eps calc_eps calc_cov (S f) s
    = stage_loop minimum_eps calc_eps calc_cov f
        (mkLoop (lstage s + 1) e (S (lcalls s))
           ((levents s ++ [Sample (lstage s) (leps s)])
              ++ [Covariance; Rebuild; Resample; Dump; Advance])).
Proof.
  intros H1 H2 H3 H4. simpl.
  destruct (Rlt_dec minimum_eps (leps s)) as [_|Hn]; [|contradiction].
  rewrite H2. destruct (Rlt_dec e minimum_eps) as [Hl|_]; [contradiction|].
  rewrite H4. reflexivity.
Qed.

End LoopFacts.

(** C4 (as the code does it): when the loop is entered with
    [epsilon > minimum_eps] and the scheduler returns an epsilon below
    [minimum_eps], the loop ends on that iteration: after the log line
    only the parameters are dumped, with no covariance re-estimation,
    no rebuilt proposal, no resampling and no stage increment. *)
Theorem stage_loop_stops_below_floor :
  forall (minimum_eps : R) calc_eps calc_cov (fuel : nat) (s : Orchestrator.loop_state) (e : R),
    minimum_eps < Orchestrator.leps s ->
    calc_eps (Orchestrator.lcalls s) (Orchestrator.lstage s) = Ok e ->
    e < minimum_eps ->
    Orchestrator.stage_loop minimum_eps calc_eps calc_cov (S (S fuel)) s
      = Orchestrator.Finished
          (Orchestrator.mkLoop (Orchestrator.lstage s) e (S (Orchestrator.lcalls s))
             ((Orchestrator.levents s
                 ++ [Orchestrator.Sample (Orchestrator.lstage s) (Orchestrator.leps s)])
                ++ [Orchestrator.Dump])).
Proof.
  intros min_eps calc_eps calc_cov fuel s e H1 H2 H3.
  remember (S fuel) as f. simpl.
  destruct (Rlt_dec min_eps (Orchestrator.leps s)) as [_|Hn]; [|contradiction].
  rewrite H2. destruct (Rlt_dec e min_eps) as [_|Hn]; [|contradiction].
  subst f. apply stage_loop_exit. simpl. lra.
Qed.

Lemma stage_loop_stops_below_floor_witness :
  Orchestrator.stage_loop (1/2) (fun _ _ => Ok (1/4)) (fun _ => Ok tt) 2 loop_start
    = Orchestrator.Finished
        (Orchestrator.mkLoop 0 (1/4) 2 ([] ++ [Orchestrator.Sample 0 1] ++ [Orchestrator.Dump])).
Proof.
  apply (stage_loop_stops_below_floor (1/2) (fun _ _ => Ok (1/4)) (fun _ => Ok tt) 0 loop_start (1/4)).
  - simpl. lra.
  - reflexivity.
  - lra.
Defined.

(** C4 fails as stated: nothing makes the epsilons non-increasing; with
    the fixed schedule above the log lines show [2, 2, 3]. *)
Lemma stage_loop_epsilon_increases :
  exists s,
    Orchestrator.run_stages (1/2) fixed_schedule (fun _ => Ok tt) 4 0 = Orchestrator.Finished s
    /\ Orchestrator.emitted (Orchestrator.levents s) = [2; 2; 3]
    /\ ~ Orchestrator.non_increasing (Orchestrator.emitted (Orchestrator.levents s)).
Proof.
  unfold Orchestrator.run_stages.
  change (fixed_schedule 0 0) with (@Ok R 2). cbv iota beta.
  rewrite (stage_loop_continue (1/2) fixed_schedule (fun _ => Ok tt) 3 _ 2 tt);
    [|simpl; lra|reflexivity|lra|reflexivity].
  rewrite (stage_loop_continue (1/2) fixed_schedule (fun _ => Ok tt) 2 _ 3 tt);
    [|simpl; lra|reflexivity|lra|reflexivity].
  rewrite (stage_loop_continue (1/2) fixed_schedule (fun _ => Ok tt) 1 _ (1/2) tt);
    [|simpl; lra|reflexivity|lra|reflexivity].
  rewrite stage_loop_exit by (simpl; lra).
  eexists. split; [reflexivity|]. split; [reflexivity|].
  simpl. lra.
Qed.

(** ** Systematic resampling *)

Section ResampleFacts.

Import Resampling.

Variable n k : nat.
Hypothesis Hk : (k < n)%nat.

Local Abbreviation children := (onehot_children n k).
Local Abbreviation cum_onehot := (cum_onehot_at n k).
Local Abbreviation good_target := (good_target_at k).


Lemma cumsum_from_after (acc : R) (m s : nat) :
  (k < s)%nat ->
  cumsum_from acc (map (fun i => if Nat.eqb i k then 1 else 0) (seq s m))
    = map (fun i => if Nat.ltb i k then 0 else acc) (seq s m).
Proof.
  revert acc s; induction m as [|m IH]; intros acc s Hs; [reflexivity|].
  simpl. assert (E1 : Nat.eqb s k = false) by (apply Nat.eqb_neq; lia).
  assert (E2 : Nat.ltb s k = false) by (apply Nat.ltb_ge; lia).
  rewrite E1, E2, Rplus_0_r. f_equal. apply IH. lia.
Qed.

Lemma cumsum_from_before (m s : nat) :
  (s <= k)%nat -> (k < s + m)%nat ->
  cumsum_from 0 (map (fun i => if Nat.eqb i k then 1 else 0) (seq s m))
    = map (fun i => if Nat.ltb i k then 0 else 1) (seq s m).
Proof.
  revert s; induction m as [|m IH]; intros s Hs Hm; [lia|].
  simpl. destruct (Nat.eq_dec s k) as [->|Hne].
  - rewrite Nat.eqb_refl, Nat.ltb_irrefl, Rplus_0_l. f_equal.
    apply cumsum_from_after. lia.
  - assert (E1 : Nat.eqb s k = false) by (apply Nat.eqb_neq; exact Hne).
    assert (E2 : Nat.ltb s k = true) by (apply Nat.ltb_lt; lia).
    rewrite E1, E2, Rplus_0_r. f_equal. apply IH; lia.
Qed.

Lemma cumsum_onehot : cumsum (onehot n k) = cum_onehot.
Proof. apply cumsum_from_before; lia. Qed.

Lemma nth_error_map_seq {A : Type} (f : nat -> A) (m t : nat) :
  (t < m)%nat -> nth_error (map f (seq 0 m)) t = Some (f t).
Proof.
  intros Ht. rewrite nth_error_map, nth_error_seq.
  apply Nat.ltb_lt in Ht. rewrite Ht. reflexivity.
Qed.

Lemma length_cum_onehot : length cum_onehot = n.
Proof. unfold cum_onehot_at. rewrite length_map, length_seq. reflexivity. Qed.

Lemma walk_eq (fuel : nat) (ui : R) (cum : list R) (j : nat) :
  walk fuel ui cum j =
  match nth_error cum j with
  | None => None
  | Some c =>
      if Rlt_dec c ui then
        match fuel with
        | O => None
        | S f => walk f ui cum (S j)
        end
      else Some j
  end.
Proof. destruct fuel; reflexivity. Qed.

(** The walk from any [j <= k] stops at [k] for a target in [(0, 1)],
    and for [k = 0] also at the target [0]. *)
Lemma walk_onehot (ui : R) :
  ui < 1 -> (k = 0%nat \/ 0 < ui) ->
  forall d j fuel, (j + d = k)%nat -> (d <= fuel)%nat ->
    walk fuel ui cum_onehot j = Some k.
Proof.
  intros Hlt Hpos d; induction d as [|d IH]; intros j fuel Hj Hf.
  - rewrite Nat.add_0_r in Hj. subst j. rewrite walk_eq.
    unfold cum_onehot_at. rewrite nth_error_map_seq by exact Hk.
    rewrite Nat.ltb_irrefl. destruct (Rlt_dec 1 ui); [lra|reflexivity].
  - rewrite walk_eq. unfold cum_onehot_at at 1. rewrite nth_error_map_seq by lia.
    assert (E : Nat.ltb j k = true) by (apply Nat.ltb_lt; lia). rewrite E.
    destruct (Rlt_dec 0 ui) as [_|Hn]; [|destruct Hpos; [lia|contradiction]].
    destruct fuel as [|fuel]; [lia|].
    apply IH; lia.
Qed.

Lemma set_nth_map_seq (f : nat -> nat) (v : nat) (m : nat) :
  forall s t, (t < m)%nat ->
    set_nth (map f (seq s m)) t v
      = Some (map (fun i => if Nat.eqb i (s + t) then v else f i) (seq s m)).
Proof.
  induction m as [|m IH]; intros s t Ht; [lia|].
  destruct t as [|t]; simpl.
  - rewrite Nat.add_0_r, Nat.eqb_refl. f_equal. f_equal.
    apply map_ext_in. intros i Hi. apply in_seq in Hi.
    destruct (Nat.eqb_spec i s); [lia|reflexivity].
  - rewrite IH by lia.
    assert (E : Nat.eqb s (s + S t) = false) by (apply Nat.eqb_neq; lia). rewrite E.
    f_equal. f_equal. apply map_ext. intros i. replace (S s + t)%nat with (s + S t)%nat by lia.
    reflexivity.
Qed.

Lemma children_incr (c : nat) : set_nth (children c) k (S c) = Some (children (S c)).
Proof.
  unfold onehot_children. rewrite set_nth_map_seq by exact Hk. simpl. f_equal.
  apply map_ext. intros i. destruct (Nat.eqb i k); reflexivity.
Qed.

Lemma count_children_onehot (us : list R) :
  (forall ui, In ui us -> good_target ui) ->
  forall j c, (j <= k)%nat ->
    count_children n us cum_onehot j (children c) = Some (children (c + length us)).
Proof.
  induction us as [|ui us IH]; intros Hus j c Hj.
  - simpl. rewrite Nat.add_0_r. reflexivity.
  - simpl. destruct (Hus ui (or_introl eq_refl)) as [H1 H2].
    rewrite (walk_onehot ui H1 H2 (k - j) j n) by lia.
    unfold onehot_children at 1. rewrite nth_error_map_seq by exact Hk. rewrite Nat.eqb_refl.
    fold (children c). rewrite children_incr.
    rewrite IH; [| intros u Hu; apply Hus; right; exact Hu | lia].
    f_equal. f_equal. lia.
Qed.

Lemma set_nth_app {A : Type} (l1 l2 : list A) (x v : A) :
  set_nth (l1 ++ x :: l2) (length l1) v = Some (l1 ++ v :: l2).
Proof.
  induction l1 as [|h t IH]; [reflexivity|]. simpl. rewrite IH. reflexivity.
Qed.

Lemma fill_repeat (v : nat) (b : nat) :
  forall a, fill (repeat v a ++ repeat 0%nat b) a b v = Some (repeat v (a + b)).
Proof.
  induction b as [|b IH]; intros a.
  - simpl. rewrite app_nil_r, Nat.add_0_r. reflexivity.
  - simpl fill. pose proof (set_nth_app (repeat v a) (repeat 0%nat b) 0%nat v) as E.
    rewrite repeat_length in E. simpl repeat at 2. rewrite E.
    replace (repeat v a ++ v :: repeat 0%nat b) with (repeat v (S a) ++ repeat 0%nat b).
    + rewrite IH. f_equal. f_equal. lia.
    + change (repeat v (S a)) with (v :: repeat v a). rewrite repeat_cons, <- app_assoc. reflexivity.
Qed.

Lemma place_zero (N : list nat) (m : nat) :
  forall s indx out,
    (forall i, (s <= i < s + m)%nat -> nth_error N i = Some 0%nat) ->
    place (seq s m) N indx out = Some out.
Proof.
  induction m as [|m IH]; intros s indx out HN; [reflexivity|].
  simpl. rewrite (HN s) by lia. simpl. rewrite Nat.add_0_r. apply IH.
  intros i Hi. apply HN. lia.
Qed.

Lemma nth_error_children (c i : nat) :
  (i < n)%nat -> nth_error (children c) i = Some (if Nat.eqb i k then c else 0%nat).
Proof. intros Hi. unfold onehot_children. apply nth_error_map_seq. exact Hi. Qed.

Lemma place_onehot :
  place (seq 0 n) (children n) 0 (repeat 0%nat n) = Some (repeat k n).
Proof.
  replace n with (k + S (n - S k))%nat at 1 by lia.
  rewrite seq_app. simpl Nat.add.
  assert (Hsplit : forall l1 l2 N indx out,
             place (l1 ++ l2) N indx out
             = match place l1 N indx out with
               | None => None
               | Some o => place l2 N (indx + fold_left (fun acc i => acc + nth i N 0) l1 0)%nat o
               end).
  { clear. induction l1 as [|i l1 IH]; intros l2 N indx out; simpl.
    - rewrite Nat.add_0_r. reflexivity.
    - destruct (nth_error N i) as [c|] eqn:E; [|reflexivity].
      destruct (if (0 <? c)%nat then fill out indx c i else Some out) as [o|]; [|reflexivity].
      rewrite IH.
      destruct (place l1 N (indx + c) o); [|reflexivity].
      f_equal. rewrite (nth_error_nth N i 0%nat E).
      assert (Hf : forall (l' : list nat) (a b : nat),
                 fold_left (fun acc i => (acc + nth i N 0)%nat) l' (a + b)%nat
                 = (a + fold_left (fun acc i => (acc + nth i N 0)%nat) l' b)%nat).
      { induction l' as [|x l' IHl]; intros a b; simpl; [reflexivity|].
        rewrite <- Nat.add_assoc. apply IHl. }
      pose proof (Hf l1 c 0%nat) as Hc. rewrite Nat.add_0_r in Hc. rewrite Hc. lia. }
  rewrite Hsplit.
  rewrite place_zero.
  2:{ intros i Hi. rewrite nth_error_children by lia.
      destruct (Nat.eqb_spec i k); [lia|reflexivity]. }
  assert (Hz : fold_left (fun acc i => (acc + nth i (children n) 0)%nat) (seq 0 k) 0%nat = 0%nat).
  { assert (Hg : forall m s a, (s + m <= k)%nat ->
              fold_left (fun acc i => (acc + nth i (children n) 0)%nat) (seq s m) a = a).
    { induction m as [|m IHm]; intros s a Hm; [reflexivity|].
      simpl. rewrite (nth_error_nth (children n) s 0%nat (nth_error_children n s ltac:(lia))).
      destruct (Nat.eqb_spec s k); [lia|]. rewrite Nat.add_0_r. apply IHm. lia. }
    apply Hg. lia. }
  rewrite Hz, Nat.add_0_r. simpl.
  rewrite nth_error_children by exact Hk. rewrite Nat.eqb_refl.
  assert (Hpos : (0 <? n)%nat = true) by (apply Nat.ltb_lt; lia). rewrite Hpos.
  pose proof (fill_repeat k n 0) as Hfill. simpl in Hfill. rewrite Hfill.
  apply place_zero. intros i Hi. rewrite nth_error_children by lia.
  destruct (Nat.eqb_spec i k); [lia|reflexivity].
Qed.

End ResampleFacts.

Lemma repeat_zero_children (n k : nat) : repeat 0%nat n = onehot_children n k 0.
Proof.
  unfold onehot_children.
  rewrite (map_ext _ (fun _ => 0%nat)) by (intros i; destruct (Nat.eqb i k); reflexivity).
  rewrite map_const_repeat, length_seq. reflexivity.
Qed.

(** C6 (as the code does it): with all the weight on the index [k] of
    [chains] chains and the random offset [u] in [[0, 1)], [resample]
    returns [k] in every slot when [u > 0], and also at [u = 0] when
    [k = 0]. *)
Theorem resample_onehot :
  forall (chains k : nat) (u : R),
    (k < chains)%nat -> 0 <= u < 1 -> (k = 0%nat \/ 0 < u) ->
    Resampling.resample chains (Resampling.onehot chains k) u = Ok (repeat k chains).
Proof.
  intros n k r Hk Hr Hpos.
  unfold Resampling.resample.
  rewrite (cumsum_onehot n k Hk), (length_cum_onehot n k).
  rewrite (repeat_zero_children n k).
  rewrite (count_children_onehot n k Hk).
  - rewrite length_map, length_seq, Nat.add_0_l.
    rewrite <- (repeat_zero_children n k).
    rewrite (place_onehot n k Hk). reflexivity.
  - intros ui Hui. apply in_map_iff in Hui. destruct Hui as (i & <- & Hi).
    apply in_seq in Hi.
    assert (Hn : 0 < INR n) by (apply lt_0_INR; lia).
    assert (Hin : INR i + 1 <= INR n) by (rewrite <- S_INR; apply le_INR; lia).
    assert (Hi0 : 0 <= INR i) by apply pos_INR.
    split.
    + apply (Rmult_lt_reg_r (INR n)); [exact Hn|].
      unfold Rdiv. rewrite Rmult_assoc, Rinv_l by lra. lra.
    + destruct Hpos as [Hk0|Hr0]; [left; exact Hk0|right].
      apply Rdiv_lt_0_compat; lra.
  - lia.
Qed.

Lemma resample_onehot_witness :
  Resampling.resample 3 (Resampling.onehot 3 1) (1/2) = Ok [1; 1; 1]%nat.
Proof.
  apply (resample_onehot 3 1 (1/2)).
  - lia.
  - lra.
  - right. lra.
Defined.

(** C6 fails as stated at [u = 0]: with the weights [[0; 1]] the first
    target mass is [0], the walk stops at the first index whose
    cumulative weight is not below it, index [0] (weight 0), and the
    result is [[0; 1]]. *)
Lemma resample_zero_offset_picks_empty_index :
  Resampling.resample 2 (Resampling.onehot 2 1) 0 = Ok [0; 1]%nat.
Proof.
  unfold Resampling.resample, Resampling.onehot. simpl.
  repeat (simpl; match goal with
                 | |- context [Rlt_dec ?a ?b] =>
                     destruct (Rlt_dec a b); try (exfalso; simpl in *; lra)
                 end).
  reflexivity.
Qed.

(** ** Weighted covariance *)

Lemma scale_by_inv_pos (c fact : R) :
  0 < fact -> Covariance.scale_by_inv c fact = Fin (c / fact).
Proof.
  intros H. unfold Covariance.scale_by_inv. destruct (Rle_dec fact 0); [lra|reflexivity].
Qed.

Lemma has_nan_or_inf_all_finite (c : list (list xR)) :
  (forall row x, In row c -> In x row -> isfinite x = true) ->
  Covariance.has_nan_or_inf c = false.
Proof.
  intros H. unfold Covariance.has_nan_or_inf.
  apply Bool.not_true_iff_false. intros Hex.
  apply existsb_exists in Hex. destruct Hex as (row & Hrow & Hex).
  apply existsb_exists in Hex. destruct Hex as (x & Hx & Hbad).
  specialize (H row x Hrow Hx). destruct x; discriminate.
Qed.

(** When the ddof factor [v1 - sum(w^2)/v1] is positive, every entry of
    [np.cov] is finite. *)
Lemma np_cov_finite (m : list (list R)) (aw : list R) (c : list (list xR)) :
  Covariance.np_cov m aw = Ok c -> 0 < Covariance.ddof_factor aw ->
  Covariance.has_nan_or_inf c = false.
Proof.
  intros Hc Hf. unfold Covariance.np_cov in Hc.
  destruct (negb _); [discriminate|].
  destruct (existsb _ aw); [discriminate|].
  destruct (Req_EM_T _ 0); [discriminate|].
  destruct (Rle_dec (Covariance.ddof_factor aw) 0) as [Hle|_]; [lra|].
  injection Hc as <-. apply has_nan_or_inf_all_finite.
  intros row x Hrow Hx. apply in_map_iff in Hrow. destruct Hrow as (xk & <- & _).
  apply in_map_iff in Hx. destruct Hx as (xl & <- & _).
  rewrite scale_by_inv_pos by exact Hf. reflexivity.
Qed.

(** C7 (as the code does it): once [np.cov] has produced the weighted
    covariance [c], [calc_covariance] raises [ValueError] exactly when
    [c] has a NaN or an infinite entry and returns [c] otherwise; with a
    positive ddof factor (at least two chains with positive weight) it
    does not raise, whatever the number of dimensions. *)
Theorem calc_covariance_raises_iff_nonfinite :
  forall (m : list (list R)) (aw : list R) (c : list (list xR)),
    Covariance.np_cov m aw = Ok c ->
    (Covariance.calc_covariance m aw = Err ValueError <-> Covariance.has_nan_or_inf c = true)
    /\ (Covariance.has_nan_or_inf c = false -> Covariance.calc_covariance m aw = Ok c)
    /\ (0 < Covariance.ddof_factor aw -> Covariance.calc_covariance m aw = Ok c).
Proof.
  intros m aw c Hc. unfold Covariance.calc_covariance. rewrite Hc.
  split; [|split].
  - destruct (Covariance.has_nan_or_inf c); split; congruence.
  - intros H. rewrite H. reflexivity.
  - intros Hf. rewrite (np_cov_finite m aw c Hc Hf). reflexivity.
Qed.

Lemma np_cov_2x5_ok : exists c, Covariance.np_cov pop_2x5 w_2 = Ok c.
Proof.
  unfold Covariance.np_cov, pop_2x5, w_2. simpl.
  destruct (Rlt_dec (1/2) 0); [lra|]. simpl.
  destruct (Req_EM_T (1/2 + (1/2 + 0)) 0); [lra|].
  eexists. reflexivity.
Qed.

Lemma calc_covariance_raises_iff_nonfinite_witness :
  exists c, Covariance.np_cov pop_2x5 w_2 = Ok c
    /\ ((Covariance.calc_covariance pop_2x5 w_2 = Err ValueError <-> Covariance.has_nan_or_inf c = true)
        /\ (Covariance.has_nan_or_inf c = false -> Covariance.calc_covariance pop_2x5 w_2 = Ok c)
        /\ (0 < Covariance.ddof_factor w_2 -> Covariance.calc_covariance pop_2x5 w_2 = Ok c)).
Proof.
  destruct np_cov_2x5_ok as (c & Hc). exists c. split; [exact Hc|].
  apply (calc_covariance_raises_iff_nonfinite pop_2x5 w_2 c Hc).
Defined.

(** C7 fails as stated: with 2 chains in 5 dimensions (fewer samples
    than dimensions) and equal weights, [calc_covariance] does not raise;
    it returns the finite, singular covariance matrix. *)
Lemma calc_covariance_two_chains_five_dims :
  exists c, Covariance.calc_covariance pop_2x5 w_2 = Ok c /\ Covariance.has_nan_or_inf c = false.
Proof.
  destruct np_cov_2x5_ok as (c & Hc). exists c.
  assert (Hf : 0 < Covariance.ddof_factor w_2).
  { unfold Covariance.ddof_factor, Covariance.sum, w_2. simpl. lra. }
  split.
  - unfold Covariance.calc_covariance. rewrite Hc, (np_cov_finite _ _ c Hc Hf). reflexivity.
  - exact (np_cov_finite _ _ c Hc Hf).
Qed.

(** ** The Cholesky factor of the proposal *)

Section CholeskyFacts.

Import Proposal.

Lemma rsum_ext (n : nat) (f g : nat -> R) :
  (forall i, (i < n)%nat -> f i = g i) -> rsum n f = rsum n g.
Proof.
  revert f g; induction n as [|n IH]; intros f g H; [reflexivity|].
  simpl. rewrite (H 0%nat) by lia. f_equal. apply IH. intros i Hi. apply H. lia.
Qed.

Lemma rsum_plus (n : nat) (f g : nat -> R) :
  rsum n (fun i => f i + g i) = rsum n f + rsum n g.
Proof.
  revert f g; induction n as [|n IH]; intros f g; simpl; [ring|].
  rewrite IH. ring.
Qed.

Lemma rsum_scal (n : nat) (c : R) (f : nat -> R) :
  rsum n (fun i => c * f i) = c * rsum n f.
Proof.
  revert f; induction n as [|n IH]; intros f; simpl; [ring|].
  rewrite IH. ring.
Qed.

Lemma rsum_zero (n : nat) (f : nat -> R) :
  (forall i, (i < n)%nat -> f i = 0) -> rsum n f = 0.
Proof.
  intros H. rewrite (rsum_ext n f (fun i => 0 * 0)) by (intros i Hi; rewrite H by lia; ring).
  rewrite rsum_scal. ring.
Qed.

(** The quadratic form of [A] at the vector [(x0, y)] in terms of the
    first pivot, the first column and the trailing block. *)
Lemma quad_split (n : nat) (A : mat) (x0 : R) (y : nat -> R) :
  quad (S n) A (fun i => match i with O => x0 | S i' => y i' end)
  = x0 * A 0%nat 0%nat * x0
    + x0 * rsum n (fun j => A 0%nat (S j) * y j)
    + x0 * rsum n (fun i => y i * A (S i) 0%nat)
    + quad n (fun i j => A (S i) (S j)) y.
Proof.
  unfold quad. simpl rsum. cbv beta iota.
  rewrite rsum_plus.
  rewrite (rsum_ext n (fun j => x0 * A 0%nat (S j) * y j)
                     (fun j => x0 * (A 0%nat (S j) * y j))) by (intros; ring).
  rewrite rsum_scal.
  rewrite (rsum_ext n (fun i => y i * A (S i) 0%nat * x0)
                     (fun i => x0 * (y i * A (S i) 0%nat))) by (intros; ring).
  rewrite rsum_scal. ring.
Qed.

Lemma quad_schur (n : nat) (A : mat) (a : R) (y : nat -> R) :
  a <> 0 ->
  quad n (fun i j => A (S i) (S j) - A (S i) 0%nat * A (S j) 0%nat / a) y
  = quad n (fun i j => A (S i) (S j)) y
    - rsum n (fun i => y i * A (S i) 0%nat) * rsum n (fun j => A (S j) 0%nat * y j) / a.
Proof.
  intros Ha. unfold quad.
  rewrite (rsum_ext n _ (fun i => rsum n (fun j => y i * A (S i) (S j) * y j)
                                 + (- (y i * A (S i) 0%nat / a)) * rsum n (fun j => A (S j) 0%nat * y j))).
  2:{ intros i Hi. rewrite <- rsum_scal, <- rsum_plus. apply rsum_ext. intros j Hj. field. exact Ha. }
  rewrite rsum_plus.
  rewrite (rsum_ext n (fun i => - (y i * A (S i) 0%nat / a) * rsum n (fun j => A (S j) 0%nat * y j))
                     (fun i => (- rsum n (fun j => A (S j) 0%nat * y j) / a) * (y i * A (S i) 0%nat)))
    by (intros; field; exact Ha).
  rewrite rsum_scal. field. exact Ha.
Qed.

Lemma chol_pos_def (n : nat) :
  forall A, sym_all A -> pos_def n A -> exists L, chol n A = Some L.
Proof.
  induction n as [|n IH]; intros A Hsym Hpd; [eexists; reflexivity|].
  set (a := A 0%nat 0%nat).
  assert (Ha : 0 < a).
  { specialize (Hpd (fun i => match i with O => 1 | S _ => 0 end)).
    rewrite quad_split in Hpd.
    rewrite (rsum_zero n (fun j => A 0%nat (S j) * 0)) in Hpd by (intros; ring).
    rewrite (rsum_zero n (fun i => 0 * A (S i) 0%nat)) in Hpd by (intros; ring).
    unfold quad in Hpd.
    rewrite (rsum_zero n (fun i => rsum n (fun j => 0 * A (S i) (S j) * 0))) in Hpd
      by (intros i _; apply rsum_zero; intros; ring).
    unfold a. apply (Rlt_le_trans _ _ _ (Hpd (ex_intro _ 0%nat (conj (Nat.lt_0_succ n) R1_neq_R0)))).
    right. ring. }
  simpl. fold a. destruct (Rle_dec a 0) as [Hle|_]; [lra|].
  destruct (IH (fun i j => A (S i) (S j) - A (S i) 0%nat * A (S j) 0%nat / a)) as (L' & HL').
  - intros i j. cbv beta. rewrite (Hsym (S i) (S j)). unfold Rdiv; rewrite (Rmult_comm (A (S i) 0%nat) (A (S j) 0%nat)); reflexivity.
  - intros y (i & Hi & Hy).
    set (t := rsum n (fun j => A (S j) 0%nat * y j)).
    specialize (Hpd (fun i => match i with O => - t / a | S i' => y i' end)).
    rewrite quad_split in Hpd.
    rewrite quad_schur by lra.
    rewrite (rsum_ext n (fun j => A 0%nat (S j) * y j) (fun j => A (S j) 0%nat * y j))
      in Hpd by (intros j _; rewrite Hsym; reflexivity).
    rewrite (rsum_ext n (fun i => y i * A (S i) 0%nat) (fun j => A (S j) 0%nat * y j))
      in Hpd by (intros; ring).
    rewrite (rsum_ext n (fun i => y i * A (S i) 0%nat) (fun j => A (S j) 0%nat * y j))
      by (intros; ring).
    fold t in Hpd |- *. fold a in Hpd.
    assert (Hq : 0 < - t / a * a * (- t / a) + - t / a * t + - t / a * t
                     + quad n (fun i j => A (S i) (S j)) y).
    { apply Hpd. exists (S i). split; [lia|exact Hy]. }
    replace (quad n (fun i j => A (S i) (S j)) y - t * t / a)
      with (- t / a * a * (- t / a) + - t / a * t + - t / a * t
            + quad n (fun i j => A (S i) (S j)) y) by (field; lra).
    exact Hq.
  - rewrite HL'. eexists. reflexivity.
Qed.

Lemma chol_lower (n : nat) :
  forall A L, chol n A = Some L -> lower_triangular n L.
Proof.
  induction n as [|n IH]; intros A L HL i j Hij Hj; [lia|].
  simpl in HL. destruct (Rle_dec (A 0%nat 0%nat) 0); [discriminate|].
  destruct (chol n _) as [L'|] eqn:E; [|discriminate].
  injection HL as <-.
  destruct i as [|i]; destruct j as [|j]; try lia; [reflexivity|].
  apply (IH _ L' E); lia.
Qed.

Lemma chol_factor (n : nat) :
  forall A L, sym_all A -> chol n A = Some L ->
    forall i j, (i < n)%nat -> (j < n)%nat -> rsum n (fun t => L i t * L j t) = A i j.
Proof.
  induction n as [|n IH]; intros A L Hsym HL i j Hi Hj; [lia|].
  simpl in HL. destruct (Rle_dec (A 0%nat 0%nat) 0) as [|Hpos]; [discriminate|].
  apply Rnot_le_lt in Hpos.
  destruct (chol n _) as [L'|] eqn:E; [|discriminate].
  injection HL as <-.
  assert (Hd : sqrt (A 0%nat 0%nat) * sqrt (A 0%nat 0%nat) = A 0%nat 0%nat) by (apply sqrt_sqrt; lra).
  assert (Hd0 : sqrt (A 0%nat 0%nat) <> 0) by (apply Rgt_not_eq, sqrt_lt_R0; lra).
  simpl rsum. cbv beta iota.
  destruct i as [|i]; destruct j as [|j].
  - rewrite rsum_zero by (intros; ring). lra.
  - rewrite rsum_zero by (intros; ring). rewrite (Hsym 0%nat (S j)). field. exact Hd0.
  - rewrite rsum_zero by (intros; ring). field. exact Hd0.
  - assert (Hs : sym_all (fun i j => A (S i) (S j) - A (S i) 0%nat * A (S j) 0%nat / A 0%nat 0%nat)).
    { intros i' j'. cbv beta. rewrite (Hsym (S i') (S j')). unfold Rdiv.
      rewrite (Rmult_comm (A (S i') 0%nat) (A (S j') 0%nat)). reflexivity. }
    rewrite (IH _ L' Hs E i j) by lia.
    rewrite <- Hd at 3. field. exact Hd0.
Qed.

End CholeskyFacts.

Section ProposalFacts.

Import Proposal.

Lemma quad_ext (n : nat) (A B : mat) (x : nat -> R) :
  (forall i j, (i < n)%nat -> (j < n)%nat -> A i j = B i j) -> quad n A x = quad n B x.
Proof.
  intros H. unfold quad. apply rsum_ext. intros i Hi. apply rsum_ext. intros j Hj.
  rewrite H by assumption. reflexivity.
Qed.

Lemma lower_sym_sym_all (s : list (list R)) : sym_all (lower_sym s).
Proof.
  intros i j. unfold lower_sym.
  destruct (Nat.leb j i) eqn:E1; destruct (Nat.leb i j) eqn:E2;
    apply Nat.leb_le in E1 || apply Nat.leb_gt in E1;
    apply Nat.leb_le in E2 || apply Nat.leb_gt in E2; try lia; try reflexivity.
  replace j with i by lia. reflexivity.
Qed.

Lemma lower_sym_entry (n : nat) (s : list (list R)) :
  symmetric n (entry s) ->
  forall i j, (i < n)%nat -> (j < n)%nat -> lower_sym s i j = entry s i j.
Proof.
  intros Hs i j Hi Hj. unfold lower_sym.
  destruct (Nat.leb j i); [reflexivity|]. apply Hs; assumption.
Qed.

Lemma init_square (s : list (list R)) (n : nat) :
  shape2 s = Some (n, n) ->
  init s = match chol n (lower_sym s) with
           | None => Err LinAlgError
           | Some L => Ok (mkProposal n L)
           end.
Proof.
  intros H. unfold init, cholesky. rewrite H, Nat.eqb_refl. simpl.
  destruct (chol n (lower_sym s)); reflexivity.
Qed.

End ProposalFacts.

(** C9 (amended): [MultivariateNormalProposal.__init__] raises
    [ValueError] when [s] has no two-dimensional shape or is not square.
    For a square [s] it succeeds exactly when the Cholesky factorisation of
    the symmetric matrix given by the lower triangle of [s] succeeds, and
    raises [LinAlgError] otherwise; symmetry of [s] itself is not checked.
    For every square symmetric positive-definite [s] construction succeeds
    and stores a lower-triangular [L] with [L L^T = s]. *)
Theorem proposal_init_spec (s : list (list R)) :
  (Proposal.shape2 s = None -> Proposal.init s = Err ValueError) /\
  (forall n m, Proposal.shape2 s = Some (n, m) -> n <> m -> Proposal.init s = Err ValueError) /\
  (forall n, Proposal.shape2 s = Some (n, n) ->
     (Proposal.init s = Err LinAlgError <-> Proposal.chol n (Proposal.lower_sym s) = None) /\
     (forall L, Proposal.init s = Ok (Proposal.mkProposal n L) <->
                Proposal.chol n (Proposal.lower_sym s) = Some L)) /\
  (forall n, Proposal.shape2 s = Some (n, n) ->
     Proposal.symmetric n (Proposal.entry s) -> Proposal.pos_def n (Proposal.entry s) ->
     exists L, Proposal.init s = Ok (Proposal.mkProposal n L) /\
       Proposal.lower_triangular n L /\
       forall i j, (i < n)%nat -> (j < n)%nat ->
         Proposal.rsum n (fun t => L i t * L j t) = Proposal.entry s i j).
Proof.
  split; [|split; [|split]].
  - intros H. unfold Proposal.init. rewrite H. reflexivity.
  - intros n m H Hnm. unfold Proposal.init. rewrite H.
    apply Nat.eqb_neq in Hnm. rewrite Hnm. reflexivity.
  - intros n H. rewrite (init_square s n H). split.
    + destruct (Proposal.chol n (Proposal.lower_sym s)); split; congruence.
    + intros L. destruct (Proposal.chol n (Proposal.lower_sym s)); split; congruence.
  - intros n H Hs Hpd.
    assert (Hpd' : Proposal.pos_def n (Proposal.lower_sym s)).
    { intros x Hx. rewrite (quad_ext n _ (Proposal.entry s)) by (apply lower_sym_entry; exact Hs).
      apply Hpd, Hx. }
    destruct (chol_pos_def n _ (lower_sym_sym_all s) Hpd') as (L & HL).
    exists L. rewrite (init_square s n H), HL. split; [reflexivity|split].
    + exact (chol_lower n _ _ HL).
    + intros i j Hi Hj. rewrite (chol_factor n _ _ (lower_sym_sym_all s) HL i j Hi Hj).
      apply (lower_sym_entry n s Hs); assumption.
Qed.

Lemma proposal_init_spec_witness :
  exists L, Proposal.init id2 = Ok (Proposal.mkProposal 2 L) /\
    Proposal.lower_triangular 2 L /\
    forall i j, (i < 2)%nat -> (j < 2)%nat ->
      Proposal.rsum 2 (fun t => L i t * L j t) = Proposal.entry id2 i j.
Proof.
  apply (proj2 (proj2 (proj2 (proposal_init_spec id2))) 2%nat).
  - reflexivity.
  - intros i j Hi Hj. destruct i as [|[|i]]; destruct j as [|[|j]]; try lia; reflexivity.
  - intros x (i & Hi & Hx). unfold Proposal.quad, Proposal.entry. simpl.
    assert (H0 : 0 <= x 0%nat * x 0%nat) by apply Rle_0_sqr.
    assert (H1 : 0 <= x 1%nat * x 1%nat) by apply Rle_0_sqr.
    destruct i as [|[|i]]; [| |lia].
    + assert (0 < x 0%nat * x 0%nat) by (apply Rsqr_pos_lt; exact Hx). nra.
    + assert (0 < x 1%nat * x 1%nat) by (apply Rsqr_pos_lt; exact Hx). nra.
Defined.

(** C9 (counterexample): the square matrix [[1, 5], [0, 1]] is neither
    symmetric nor positive-definite (its quadratic form at (1, -1) is -3),
    yet constructing the proposal from it succeeds: the Cholesky routine
    only reads the lower triangle, which is the identity. *)
Lemma proposal_init_accepts_non_pos_def :
  Proposal.shape2 s_skew = Some (2%nat, 2%nat) /\
  ~ Proposal.symmetric 2 (Proposal.entry s_skew) /\
  ~ Proposal.pos_def 2 (Proposal.entry s_skew) /\
  exists p, Proposal.init s_skew = Ok p.
Proof.
  split; [reflexivity|split; [|split]].
  - intros H. specialize (H 0%nat 1%nat ltac:(lia) ltac:(lia)).
    unfold Proposal.entry in H. simpl in H. lra.
  - intros H.
    specialize (H (fun i => match i with O => 1 | _ => -1 end)
                  (ex_intro _ 0%nat (conj (Nat.lt_0_succ 1) R1_neq_R0))).
    unfold Proposal.quad, Proposal.entry in H. simpl in H. lra.
  - unfold Proposal.init, Proposal.cholesky. simpl.
    repeat (simpl; match goal with
                   | |- context [Rle_dec ?a ?b] =>
                       destruct (Rle_dec a b); try (exfalso; unfold Proposal.lower_sym, Proposal.entry in *; simpl in *; lra)
                   end).
    eexists. reflexivity.
Qed.

(** * Further properties of the sampler *)

(** ** Systematic resampling for arbitrary weights *)

Section ResampleGeneral.

Import Resampling.

Lemma walk_none_below (ui : R) (cum : list R) :
  (forall c, In c cum -> c < ui) -> forall fuel j, walk fuel ui cum j = None.
Proof.
  intros Hc fuel; induction fuel as [|f IH]; intros j; rewrite walk_eq;
    destruct (nth_error cum j) as [c|] eqn:E; try reflexivity;
    (destruct (Rlt_dec c ui) as [_|Hn]; [|exfalso; apply Hn, Hc; eapply nth_error_In; exact E]).
  - reflexivity.
  - apply IH.
Qed.

Lemma count_children_none (fuel : nat) (cum : list R) (us : list R) :
  (exists ui, In ui us /\ forall c, In c cum -> c < ui) ->
  forall j nc, count_children fuel us cum j nc = None.
Proof.
  induction us as [|ui us IH]; intros (t & Ht & Hb) j nc; [destruct Ht|].
  simpl. destruct Ht as [<-|Ht].
  - rewrite (walk_none_below ui cum Hb). reflexivity.
  - destruct (walk fuel ui cum j) as [j'|]; [|reflexivity].
    destruct (nth_error nc j'); [|reflexivity].
    destruct (set_nth nc j' _); [|reflexivity].
    apply IH. exists t. auto.
Qed.

Lemma set_nth_length {A : Type} (l : list A) (i : nat) (v : A) (l' : list A) :
  set_nth l i v = Some l' -> length l' = length l.
Proof.
  revert i l'; induction l as [|h t IH]; intros i l' H; [discriminate|].
  destruct i as [|i]; simpl in H.
  - injection H as <-. reflexivity.
  - destruct (set_nth t i v) eqn:E; [|discriminate]. injection H as <-.
    simpl. f_equal. eapply IH. exact E.
Qed.

Lemma set_nth_nth_error {A : Type} (l : list A) (i : nat) (v : A) (l' : list A) :
  set_nth l i v = Some l' ->
  forall t, nth_error l' t = if Nat.eqb t i then Some v else nth_error l t.
Proof.
  revert i l'; induction l as [|h tl IH]; intros i l' H t; [discriminate|].
  destruct i as [|i]; simpl in H.
  - injection H as <-. destruct t; reflexivity.
  - destruct (set_nth tl i v) as [tl'|] eqn:E; [|discriminate]. injection H as <-.
    destruct t as [|t]; [reflexivity|]. simpl. apply (IH i tl' E t).
Qed.

Lemma set_nth_sum (l : list nat) (i c v : nat) (l' : list nat) :
  set_nth l i v = Some l' -> nth_error l i = Some c ->
  (list_sum l' + c = list_sum l + v)%nat.
Proof.
  revert i l'; induction l as [|h t IH]; intros i l' H Hc; [discriminate|].
  destruct i as [|i]; simpl in H, Hc.
  - injection H as <-. injection Hc as <-. simpl. lia.
  - destruct (set_nth t i v) as [t'|] eqn:E; [|discriminate]. injection H as <-.
    simpl. pose proof (IH i t' E Hc). lia.
Qed.

Lemma count_children_sum (fuel : nat) (cum : list R) (us : list R) :
  forall j nc nc', count_children fuel us cum j nc = Some nc' ->
    length nc' = length nc /\ list_sum nc' = (list_sum nc + length us)%nat.
Proof.
  induction us as [|ui us IH]; intros j nc nc' H; simpl in H.
  - injection H as <-. split; [reflexivity|]. simpl. lia.
  - destruct (walk fuel ui cum j) as [j'|]; [|discriminate].
    destruct (nth_error nc j') as [c|] eqn:Ec; [|discriminate].
    destruct (set_nth nc j' (S c)) as [nc1|] eqn:Es; [|discriminate].
    destruct (IH j' nc1 nc' H) as [Hl Hs].
    pose proof (set_nth_length _ _ _ _ Es). pose proof (set_nth_sum _ _ _ _ _ Es Ec).
    simpl. split; lia.
Qed.

(** [fill] writes [count] copies of [v] from [start] on. *)
Lemma fill_block (v : nat) (c : nat) :
  forall pre rest, (c <= length rest)%nat ->
    fill (pre ++ rest) (length pre) c v = Some (pre ++ repeat v c ++ skipn c rest).
Proof.
  induction c as [|c IH]; intros pre rest Hc; [reflexivity|].
  destruct rest as [|x rest]; simpl in Hc; [lia|].
  simpl fill. rewrite set_nth_app.
  replace (pre ++ v :: rest) with ((pre ++ [v]) ++ rest) by (rewrite <- app_assoc; reflexivity).
  replace (S (length pre)) with (length (pre ++ [v])) by (rewrite length_app; simpl; lia).
  rewrite IH by lia. rewrite <- app_assoc. reflexivity.
Qed.

(** [place] writes, for each parent [i] in turn, [N_childs[i]] copies of
    [i]. *)
Lemma place_blocks (nc : list nat) (ps : list nat) :
  (forall i, In i ps -> (i < length nc)%nat) ->
  forall pre rest, (psum nc ps <= length rest)%nat ->
    place ps nc (length pre) (pre ++ rest)
    = Some (pre ++ concat (map (fun i => repeat i (nth i nc 0%nat)) ps)
                ++ skipn (psum nc ps) rest).
Proof.
  induction ps as [|i ps IH]; intros Hin pre rest Hs.
  - reflexivity.
  - unfold psum in Hs. simpl in Hs. fold (psum nc ps) in Hs.
    simpl place.
    assert (Hi : (i < length nc)%nat) by (apply Hin; left; reflexivity).
    destruct (nth_error nc i) as [c|] eqn:Ec;
      [|apply nth_error_None in Ec; lia].
    rewrite (nth_error_nth nc i 0%nat Ec) in Hs. cbn [map concat]. rewrite (nth_error_nth nc i 0%nat Ec).
    assert (Hf : (if (0 <? c)%nat then fill (pre ++ rest) (length pre) c i
                  else Some (pre ++ rest))
                 = Some ((pre ++ repeat i c) ++ skipn c rest)).
    { destruct (0 <? c)%nat eqn:Ep.
      - rewrite fill_block by lia. rewrite <- app_assoc. reflexivity.
      - apply Nat.ltb_ge in Ep. replace c with 0%nat by lia. simpl. rewrite app_nil_r. reflexivity. }
    rewrite Hf.
    replace (length pre + c)%nat with (length (pre ++ repeat i c)) by (rewrite length_app, repeat_length; reflexivity).
    rewrite IH.
    + simpl. rewrite skipn_skipn, <- !app_assoc. unfold psum. cbn [map list_sum]. rewrite (nth_error_nth nc i 0%nat Ec). rewrite (Nat.add_comm _ c). reflexivity.
    + intros t Ht. apply Hin. right. exact Ht.
    + rewrite length_skipn. lia.
Qed.

Lemma map_nth_seq_self (l : list nat) :
  map (fun i => nth i l 0%nat) (seq 0 (length l)) = l.
Proof.
  induction l as [|h t IH]; [reflexivity|].
  simpl. f_equal. rewrite <- seq_shift, map_map. exact IH.
Qed.

(** Whenever [resample] returns, the output lists, for each parent [i]
    in increasing order, [N_childs[i]] copies of [i], with
    [sum N_childs = chains]. *)
Lemma resample_blocks (chains : nat) (w : list R) (u : R) (out : list nat) :
  resample chains w u = Ok out ->
  exists nc, length nc = chains /\ list_sum nc = chains /\
    count_children (length (cumsum w)) (map (fun i => (INR i + u) / INR chains) (seq 0 chains))
                   (cumsum w) 0 (repeat 0%nat chains) = Some nc /\
    out = concat (map (fun i => repeat i (nth i nc 0%nat)) (seq 0 chains)).
Proof.
  unfold resample. intros H.
  destruct (count_children _ _ _ _ _) as [nc|] eqn:Ec; [|discriminate].
  destruct (count_children_sum _ _ _ _ _ _ Ec) as [Hl Hs].
  rewrite repeat_length in Hl. rewrite length_map, length_seq in Hs.
  assert (Hz : list_sum (repeat 0%nat chains) = 0%nat).
  { clear. induction chains; simpl; lia. }
  rewrite Hz in Hs. simpl in Hs.
  exists nc. split; [exact Hl|]. split; [exact Hs|]. split; [reflexivity|].
  pose proof (place_blocks nc (seq 0 chains)) as Hp.
  assert (Hps : psum nc (seq 0 chains) = chains).
  { transitivity (list_sum nc); [|exact Hs]. unfold psum. rewrite <- Hl, map_nth_seq_self. reflexivity. }
  specialize (Hp ltac:(intros i Hi; apply in_seq in Hi; lia) [] (repeat 0%nat chains)).
  rewrite Hps, repeat_length in Hp. specialize (Hp (le_n _)).
  simpl in Hp. rewrite Hp in H. injection H as <-.
  rewrite skipn_all2 by (rewrite repeat_length; lia). rewrite app_nil_r. reflexivity.
Qed.

Lemma StronglySorted_app_le (l1 l2 : list nat) :
  StronglySorted le l1 -> StronglySorted le l2 ->
  (forall x y, In x l1 -> In y l2 -> (x <= y)%nat) -> StronglySorted le (l1 ++ l2).
Proof.
  induction l1 as [|h t IH]; intros H1 H2 H; [exact H2|].
  inversion H1 as [|? ? Ht Hf]; subst. simpl. constructor.
  - apply IH; auto. intros x y Hx Hy. apply H; [right|]; assumption.
  - apply Forall_app. split; [exact Hf|]. apply Forall_forall. intros y Hy. apply H; [left; reflexivity|exact Hy].
Qed.

Lemma blocks_sorted (f : nat -> nat) (m : nat) :
  forall s, StronglySorted le (concat (map (fun i => repeat i (f i)) (seq s m))).
Proof.
  induction m as [|m IH]; intros s; [constructor|].
  simpl. apply StronglySorted_app_le; [| apply IH |].
  - induction (f s) as [|c IHc]; simpl; constructor; [exact IHc|].
    apply Forall_forall. intros x Hx. apply repeat_spec in Hx. lia.
  - intros x y Hx Hy. apply repeat_spec in Hx. subst x.
    apply in_concat in Hy. destruct Hy as (l & Hl & Hy).
    apply in_map_iff in Hl. destruct Hl as (i & <- & Hi).
    apply repeat_spec in Hy. apply in_seq in Hi. lia.
Qed.

Lemma length_blocks (nc : list nat) :
  length (concat (map (fun i => repeat i (nth i nc 0%nat)) (seq 0 (length nc)))) = list_sum nc.
Proof.
  rewrite length_concat, map_map.
  rewrite (map_ext _ (fun i => nth i nc 0%nat)) by (intros; apply repeat_length).
  rewrite map_nth_seq_self. reflexivity.
Qed.

Lemma nth_cumsum_step (acc : R) (w : list R) :
  forall j c c', nth_error (cumsum_from acc w) j = Some c ->
    nth_error (cumsum_from acc w) (S j) = Some c' -> c' = c + nth (S j) w 0.
Proof.
  revert acc; induction w as [|h t IH]; intros acc j c c' H1 H2; [destruct j; discriminate|].
  destruct j as [|j]; simpl in H1, H2.
  - injection H1 as <-. destruct t as [|h2 t2]; [discriminate|].
    simpl in H2. injection H2 as <-. reflexivity.
  - rewrite (IH (acc + h) j c c' H1 H2). reflexivity.
Qed.

(** A walk that moves past its start stops at an index whose weight is
    positive. *)
Lemma walk_stop (w : list R) (ui : R) :
  forall fuel j j', walk fuel ui (cumsum w) j = Some j' ->
    j' = j \/ 0 < nth j' w 0.
Proof.
  assert (Hgen : forall fuel j j', walk fuel ui (cumsum w) j = Some j' ->
            exists c', nth_error (cumsum w) j' = Some c' /\ ui <= c' /\
              (j' = j \/ exists c, nth_error (cumsum w) (pred j') = Some c /\ j' <> 0%nat /\ c < ui)).
  { induction fuel as [|f IH]; intros j j' H; rewrite walk_eq in H;
      destruct (nth_error (cumsum w) j) as [c|] eqn:E; try discriminate;
      destruct (Rlt_dec c ui) as [Hlt|Hge]; try discriminate.
    - injection H as <-. exists c. split; [exact E|]. split; [lra|left; reflexivity].
    - destruct (IH (S j) j' H) as (c' & Hc' & Hle & [->|Hprev]).
      + exists c'. split; [exact Hc'|]. split; [exact Hle|]. right. exists c. simpl. auto.
      + exists c'. auto.
    - injection H as <-. exists c. split; [exact E|]. split; [lra|left; reflexivity]. }
  intros fuel j j' H. destruct (Hgen fuel j j' H) as (c' & Hc' & Hle & [Hj|(c & Hc & Hnz & Hlt)]).
  - left. exact Hj.
  - right. destruct j' as [|j']; [contradiction|]. simpl in Hc.
    pose proof (nth_cumsum_step 0 w j' c c' Hc Hc'). lra.
Qed.

Lemma count_children_positive (w : list R) (fuel : nat) (us : list R) :
  forall j nc nc', count_children fuel us (cumsum w) j nc = Some nc' ->
    (j = 0%nat \/ 0 < nth j w 0) ->
    (forall i, (0 < nth i nc 0)%nat -> i = 0%nat \/ 0 < nth i w 0) ->
    forall i, (0 < nth i nc' 0)%nat -> i = 0%nat \/ 0 < nth i w 0.
Proof.
  induction us as [|ui us IH]; intros j nc nc' H Hj Hnc; simpl in H.
  - injection H as <-. exact Hnc.
  - destruct (walk fuel ui (cumsum w) j) as [j'|] eqn:Ew; [|discriminate].
    destruct (nth_error nc j') as [c|] eqn:Ec; [|discriminate].
    destruct (set_nth nc j' (S c)) as [nc1|] eqn:Es; [|discriminate].
    assert (Hj' : j' = 0%nat \/ 0 < nth j' w 0).
    { destruct (walk_stop w ui fuel j j' Ew) as [->|Hp]; [exact Hj|right; exact Hp]. }
    apply (IH j' nc1 nc' H Hj').
    intros i Hi. pose proof (set_nth_nth_error _ _ _ _ Es i) as Ei.
    rewrite (nth_error_nth' nc1 0%nat) in Ei
      by (rewrite (set_nth_length _ _ _ _ Es); destruct (Nat.lt_ge_cases i (length nc1)) as [Hl|Hl];
          [rewrite <- (set_nth_length _ _ _ _ Es); exact Hl|rewrite nth_overflow in Hi by exact Hl; lia]).
    destruct (Nat.eqb_spec i j') as [->|Hne]; [exact Hj'|].
    apply Hnc. rewrite (nth_error_nth' nc 0%nat) in Ei
      by (destruct (Nat.lt_ge_cases i (length nc)) as [Hl|Hl]; [exact Hl|];
          apply nth_error_None in Hl; rewrite Hl in Ei; discriminate).
    injection Ei as Ei. rewrite <- Ei. exact Hi.
Qed.

End ResampleGeneral.

Section ResampleUniform.

Import Resampling.







End ResampleUniform.


Lemma py_index_nat {A : Type} (l : list A) (i : nat) (x : A) :
  nth_error l i = Some x -> py_index l (Z.of_nat i) = Ok x.
Proof.
  intros H. unfold py_index.
  assert (Hi : (i < length l)%nat) by (apply nth_error_Some; congruence).
  assert (E1 : (0 <=? Z.of_nat i)%Z = true) by (apply Z.leb_le; lia).
  assert (E2 : (Z.of_nat i <? Z.of_nat (length l))%Z = true) by (apply Z.ltb_lt; lia).
  rewrite E1, E2. simpl. rewrite Nat2Z.id, H. reflexivity.
Qed.

Lemma map_result_ok {A B : Type} (f : A -> result B) (l : list A) :
  (forall x, In x l -> exists y, f x = Ok y) ->
  exists ys, map_result f l = Ok ys /\ length ys = length l /\
    forall i x, nth_error l i = Some x -> exists y, f x = Ok y /\ nth_error ys i = Some y.
Proof.
  induction l as [|x t IH]; intros H.
  - exists []. split; [reflexivity|]. split; [reflexivity|]. intros [|i] ? E; discriminate.
  - destruct (H x (or_introl eq_refl)) as (y & Hy).
    destruct IH as (ys & Hys & Hl & Hn); [intros z Hz; apply H; right; exact Hz|].
    exists (y :: ys). simpl. rewrite Hy, Hys. split; [reflexivity|]. split; [simpl; congruence|].
    intros [|i] z E; simpl in E.
    + injection E as <-. exists y. auto.
    + apply Hn. exact E.
Qed.

Lemma nth_error_combine {A B : Type} (l : list A) (l' : list B) (i : nat) :
  nth_error (combine l l') i =
  match nth_error l i, nth_error l' i with
  | Some a, Some b => Some (a, b)
  | _, _ => None
  end.
Proof.
  revert l' i; induction l as [|a t IH]; intros l' i; [destruct i; reflexivity|].
  destruct l' as [|b t']; [destruct i; simpl; [reflexivity|destruct (nth_error t i); reflexivity]|].
  destruct i; simpl; [reflexivity|apply IH].
Qed.

(** The shape of every output of [resample]. *)
Lemma resample_shape (chains : nat) (w : list R) (u : R) (out : list nat) :
  Resampling.resample chains w u = Ok out ->
  length out = chains /\ StronglySorted le out /\ Forall (fun i => (i < chains)%nat) out.
Proof.
  intros H. destruct (resample_blocks chains w u out H) as (nc & Hl & Hs & _ & ->).
  split; [|split].
  - rewrite <- Hl at 1. rewrite length_blocks. exact Hs.
  - apply blocks_sorted.
  - apply Forall_forall. intros x Hx. apply in_concat in Hx. destruct Hx as (l & Hl' & Hx).
    apply in_map_iff in Hl'. destruct Hl' as (i & <- & Hi).
    apply repeat_spec in Hx. apply in_seq in Hi. lia.
Qed.

(** [resample 3 [1/2; 0; 1/2]] with the offset [1/2]: targets [1/6],
    [1/2], [5/6]. *)
Lemma resample_example :
  Resampling.resample 3 [1/2; 0; 1/2] (1/2) = Ok [0; 0; 2]%nat.
Proof.
  unfold Resampling.resample. simpl.
  repeat (simpl; match goal with
                 | |- context [Rlt_dec ?a ?b] =>
                     destruct (Rlt_dec a b); try (exfalso; simpl in *; lra)
                 end).
  reflexivity.
Qed.

(** ** Extra properties of [resample], [calc_beta] and the work list *)

(** [resample] raises [IndexError] when the largest target
    [(chains - 1 + r) / chains] exceeds every cumulative weight: the walk
    runs off the end of [cum_dist]. *)
Theorem resample_raises_when_mass_short (chains : nat) (w : list R) (u : R) :
  (0 < chains)%nat ->
  (forall c, In c (Resampling.cumsum w) -> c < (INR (chains - 1) + u) / INR chains) ->
  Resampling.resample chains w u = Err IndexError.
Proof.
  intros Hn Hc. unfold Resampling.resample.
  rewrite (count_children_none _ _ _); [reflexivity|].
  exists ((INR (chains - 1) + u) / INR chains). split; [|exact Hc].
  apply in_map_iff. exists (chains - 1)%nat. split; [reflexivity|].
  apply in_seq. lia.
Qed.

Lemma resample_raises_when_mass_short_witness :
  Resampling.resample 2 [1/4; 1/4] (1/2) = Err IndexError.
Proof.
  apply (resample_raises_when_mass_short 2 [1/4; 1/4] (1/2)); [lia|].
  intros c Hc. simpl in Hc. simpl.
  destruct Hc as [<-|[<-|[]]]; lra.
Defined.

(** Every successful [resample] returns [chains] indexes, each below
    [chains], in non-decreasing order. *)
Theorem resample_output_sorted (chains : nat) (w : list R) (u : R) (out : list nat) :
  Resampling.resample chains w u = Ok out ->
  length out = chains /\ StronglySorted le out /\ Forall (fun i => (i < chains)%nat) out.
Proof.
  apply resample_shape.
Qed.

Lemma resample_output_sorted_witness :
  length [0; 0; 2]%nat = 3%nat /\ StronglySorted le [0; 0; 2]%nat
  /\ Forall (fun i => (i < 3)%nat) [0; 0; 2]%nat.
Proof.
  apply (resample_output_sorted 3 [1/2; 0; 1/2] (1/2) [0; 0; 2]%nat).
  apply resample_example.
Defined.

(** An index with weight zero is never drawn by a successful [resample],
    except possibly index [0]. *)
Theorem resample_skips_zero_weight (chains : nat) (w : list R) (u : R) (out : list nat) :
  Resampling.resample chains w u = Ok out ->
  forall x, In x out -> x = 0%nat \/ 0 < nth x w 0.
Proof.
  intros H x Hx. destruct (resample_blocks chains w u out H) as (nc & _ & _ & Hc & ->).
  apply in_concat in Hx. destruct Hx as (l & Hl & Hx).
  apply in_map_iff in Hl. destruct Hl as (i & <- & _).
  assert (Hpos : (0 < nth i nc 0)%nat).
  { destruct (nth i nc 0%nat); [destruct Hx|lia]. }
  apply repeat_spec in Hx. subst x.
  apply (count_children_positive w _ _ 0 (repeat 0%nat chains) nc Hc (or_introl eq_refl)); [|exact Hpos].
  intros k Hk. rewrite nth_repeat in Hk. lia.
Qed.

Lemma resample_skips_zero_weight_witness :
  2%nat = 0%nat \/ 0 < nth 2 [1/2; 0; 1/2] 0.
Proof.
  apply (resample_skips_zero_weight 3 [1/2; 0; 1/2] (1/2) [0; 0; 2]%nat).
  - apply resample_example.
  - simpl. right. right. left. reflexivity.
Defined.




Lemma nth_error_seq_cases (s n i : nat) :
  nth_error (seq s n) i = if (i <? n)%nat then Some (s + i)%nat else None.
Proof.
  destruct (Nat.ltb_spec i n).
  - rewrite (nth_error_nth' _ 0%nat) by (rewrite length_seq; lia).
    rewrite seq_nth by lia. reflexivity.
  - apply nth_error_None. rewrite length_seq. lia.
Qed.


Lemma work_items_nth (draws : Z) (pop : list Scheduler.point) (out : list nat)
    (chains : nat) (seeds : list Z) :
  length out = chains -> Forall (fun i => (i < length pop)%nat) out ->
  length seeds = chains ->
  exists items, Parallel.work_items draws pop out chains None seeds = Ok items /\
    length items = chains /\
    forall i, (i < chains)%nat ->
      exists r pt s, nth_error out i = Some r /\ nth_error pop r = Some pt /\
        nth_error seeds i = Some s /\
        nth_error items i = Some (Parallel.mkWork draws pt i s i).
Proof.
  intros Ho Hf Hs. unfold Parallel.work_items. rewrite length_seq.
  assert (Hk : forall k, (k < chains)%nat -> exists r pt s,
             nth_error out k = Some r /\ nth_error pop r = Some pt /\ nth_error seeds k = Some s).
  { intros k Hk.
    destruct (nth_error_lt_some out k) as (r & Er); [lia|].
    assert (Hr : (r < length pop)%nat)
      by (rewrite Forall_forall in Hf; apply Hf; eapply nth_error_In; exact Er).
    destruct (nth_error_lt_some pop r Hr) as (pt & Ep).
    destruct (nth_error_lt_some seeds k) as (s & Es); [lia|].
    exists r, pt, s. auto. }
  assert (HL : forall k, nth_error (combine (combine (seq 0 chains) seeds) (seq 0 chains)) k =
                         if (k <? chains)%nat then
                           match nth_error seeds k with Some s => Some ((k, s), k) | None => None end
                         else None).
  { intros k. rewrite !nth_error_combine, !nth_error_seq_cases.
    destruct (k <? chains)%nat; [|reflexivity]. destruct (nth_error seeds k); reflexivity. }
  match goal with |- context [map_result ?f ?L] =>
    destruct (map_result_ok f L) as (ys & Hys & Hly & Hn) end.
  - intros x Hx. apply In_nth_error in Hx. destruct Hx as (k & Ek).
    rewrite HL in Ek. destruct (Nat.ltb_spec k chains) as [Hkc|]; [|discriminate].
    destruct (Hk k Hkc) as (r & pt & s & Er & Ep & Es). rewrite Es in Ek.
    injection Ek as <-. cbn beta iota.
    rewrite (py_index_nat _ _ _ Er), (py_index_nat _ _ _ Ep). eauto.
  - exists ys. split; [exact Hys|]. split.
    + rewrite Hly, !length_combine, length_seq, Hs. lia.
    + intros i Hi. destruct (Hk i Hi) as (r & pt & s & Er & Ep & Es).
      exists r, pt, s. split; [exact Er|]. split; [exact Ep|]. split; [exact Es|].
      assert (Ei := HL i). apply Nat.ltb_lt in Hi. rewrite Hi, Es in Ei.
      destruct (Hn i _ Ei) as (y & Hy & Ey). rewrite Ey. f_equal.
      cbn beta iota in Hy. rewrite (py_index_nat _ _ _ Er), (py_index_nat _ _ _ Ep) in Hy.
      injection Hy as <-. reflexivity.
Qed.

(** After a successful [resample] over a population of [chains] points
    and with one seed per chain, [_iter_parallel_chains] builds one work
    tuple per chain: the [i]-th starts at the point the [i]-th resampling
    index names and carries chain number [i], the [i]-th seed and chain
    index [i]. *)
Theorem resample_work_items (chains : nat) (w : list R) (u : R) (out : list nat)
    (draws : Z) (pop : list Scheduler.point) (seeds : list Z) :
  Resampling.resample chains w u = Ok out ->
  length pop = chains -> length seeds = chains ->
  exists items, Parallel.work_items draws pop out chains None seeds = Ok items /\
    length items = chains /\
    forall i, (i < chains)%nat ->
      exists r pt s, nth_error out i = Some r /\ nth_error pop r = Some pt /\
        nth_error seeds i = Some s /\
        nth_error items i = Some (Parallel.mkWork draws pt i s i).
Proof.
  intros Hr Hp Hs. destruct (resample_shape _ _ _ _ Hr) as (Ho & _ & Hf).
  apply work_items_nth; [exact Ho| |exact Hs].
  rewrite Hp. exact Hf.
Qed.

Lemma resample_work_items_witness :
  exists items,
    Parallel.work_items 5 [fun _ => 0; fun _ => 1; fun _ => 2] [0; 0; 2]%nat 3 None [7; 8; 9]%Z
      = Ok items /\ length items = 3%nat /\
    forall i, (i < 3)%nat ->
      exists r pt s, nth_error [0; 0; 2]%nat i = Some r /\
        nth_error [fun _ : String.string => 0; fun _ => 1; fun _ => 2] r = Some pt /\
        nth_error [7; 8; 9]%Z i = Some s /\
        nth_error items i = Some (Parallel.mkWork 5 pt i s i).
Proof.
  apply (resample_work_items 3 [1/2; 0; 1/2] (1/2)).
  - apply resample_example.
  - reflexivity.
  - reflexivity.
Defined.




Lemma nth_map_cases {A B : Type} (f : A -> B) (l : list A) (i : nat) (a : A) (b : B) :
  nth i (map f l) b = if (i <? length l)%nat then f (nth i l a) else b.
Proof.
  destruct (Nat.ltb_spec i (length l)).
  - rewrite (nth_indep _ b (f a)) by (rewrite length_map; exact H). apply map_nth.
  - apply nth_overflow. rewrite length_map. exact H.
Qed.




(** With a single chain, [calc_covariance] always raises: when the
    dimension is not 1 the one row is read as one variable and [np.cov]
    rejects the weights ([RuntimeError]); in dimension 1 the covariance
    is [0/0] (or the weight is negative or zero). *)
Theorem calc_covariance_single_chain (r : list R) (w0 : R) :
  exists e, Covariance.calc_covariance [r] [w0] = Err e /\
    (length r <> 1%nat -> e = RuntimeError).
Proof.
  destruct (Nat.eq_dec (length r) 1) as [H1|H1].
  - enough (Hx : exists e, Covariance.calc_covariance [r] [w0] = Err e)
      by (destruct Hx as (e & He); exists e; split; [exact He|intros; contradiction]).
    destruct r as [|x [|y r]]; try discriminate.
    unfold Covariance.calc_covariance, Covariance.np_cov. simpl.
    destruct (Rlt_dec w0 0); [simpl; eauto|].
    simpl. destruct (Req_EM_T (w0 + 0) 0); [eauto|].
    assert (Hf : Covariance.ddof_factor [w0] <= 0).
    { unfold Covariance.ddof_factor; simpl. right. field. lra. }
    destruct (Rle_dec (Covariance.ddof_factor [w0]) 0) as [_|Hn]; [|contradiction].
    unfold Covariance.scale_by_inv. destruct (Rle_dec 0 0) as [_|Hn]; [|lra].
    match goal with |- context [Rlt_dec 0 ?c] =>
      destruct (Rlt_dec 0 c); [|destruct (Rlt_dec c 0)] end; simpl; eauto.
  - exists RuntimeError. split; [|reflexivity].
    destruct r as [|x [|y r]]; [reflexivity|simpl in H1; lia|reflexivity].
Qed.

Lemma calc_covariance_single_chain_witness :
  exists e, Covariance.calc_covariance [[0; 1]] [1] = Err e /\
    (length [0; 1] <> 1%nat -> e = RuntimeError).
Proof.
  apply (calc_covariance_single_chain [0; 1] 1).
Defined.

Lemma insert_repeat (c : R) (k : nat) : Scheduler.insert c (repeat c k) = repeat c (S k).
Proof.
  destruct k; simpl; [reflexivity|]. destruct (Rle_dec c c) as [_|n]; [reflexivity|lra].
Qed.

Lemma isort_repeat (c : R) (k : nat) : Scheduler.isort (repeat c k) = repeat c k.
Proof. induction k as [|k IH]; simpl; [reflexivity|]. rewrite IH. apply insert_repeat. Qed.

Lemma flat_map_const (pop : list Scheduler.point) (vars : list String.string) (c : R) :
  (forall d v, In d pop -> In v vars -> d v = c) ->
  flat_map (fun d => map d vars) pop = repeat c (length pop * length vars).
Proof.
  induction pop as [|d t IH]; intros H; [reflexivity|].
  simpl. rewrite repeat_app, IH by (intros d' v Hd Hv; apply H; [right|]; assumption).
  f_equal. rewrite <- map_const_repeat. apply map_ext_in. intros v Hv. apply H; [left|]; auto.
Qed.

Lemma clip_between (a lo hi : R) : lo <= hi -> lo <= Scheduler.clip a lo hi <= hi.
Proof. intros H. unfold Scheduler.clip, Rmin, Rmax. repeat destruct Rle_dec; lra. Qed.

Lemma nth_repeat_lt {A : Type} (c d : A) (N i : nat) :
  (i < N)%nat -> nth i (repeat c N) d = c.
Proof.
  intros H. rewrite (nth_indep (repeat c N) d c) by (rewrite repeat_length; exact H).
  apply nth_repeat.
Qed.

Lemma quantile_repeat (c : R) (N : nat) (p : R) :
  (2 <= N)%nat -> Scheduler.quantile_sorted (repeat c N) p = c.
Proof.
  intros HN. unfold Scheduler.quantile_sorted. rewrite repeat_length.
  assert (H2 : 2 <= INR N) by (replace 2 with (INR 2) by (simpl; ring); apply le_INR; exact HN).
  match goal with |- context [Int_part (Scheduler.clip ?a 1 (INR N - 1))] =>
    destruct (clip_between a 1 (INR N - 1)) as [Hlo Hhi]; [lra|];
    destruct (base_Int_part (Scheduler.clip a 1 (INR N - 1))) as [Hk1 Hk2];
    set (k := Int_part (Scheduler.clip a 1 (INR N - 1))) in * end.
  assert (Ek : (0 < k)%Z) by (apply lt_IZR; lra).
  assert (Ek' : (k + 1 <= Z.of_nat N)%Z).
  { apply le_IZR. rewrite plus_IZR, <- INR_IZR_INZ. simpl. lra. }
  rewrite !nth_repeat_lt by lia. ring.
Qed.

(** In adaptive mode, a population in which every variable has the same
    value in every point (with at least one point and one variable) has
    interquartile range 0, so [_calc_epsilon] returns epsilon 0. *)
Theorem calc_epsilon_constant_population (pop : list Scheduler.point) (vars : list String.string)
    (c iqr : R) (st : Z) :
  pop <> [] -> vars <> [] -> (forall d v, In d pop -> In v vars -> d v = c) ->
  Scheduler.calc_epsilon None pop vars iqr st = Ok 0.
Proof.
  intros Hp Hv Hc. unfold Scheduler.calc_epsilon, Scheduler.mquantiles.
  rewrite (flat_map_const pop vars c Hc), isort_repeat.
  assert (HN : (1 <= length pop * length vars)%nat).
  { destruct pop as [|d p]; [contradiction|]. destruct vars as [|v vs]; [contradiction|].
    simpl. lia. }
  destruct (length pop * length vars)%nat as [|[|N]] eqn:EN; [lia| |].
  - simpl. rewrite Rminus_diag, Rabs_R0, Rmult_0_l. reflexivity.
  - change (repeat c (S (S N))) with (c :: c :: repeat c N).
    cbn [map]. change (c :: c :: repeat c N) with (repeat c (S (S N))).
    rewrite !quantile_repeat by lia. rewrite Rminus_diag, Rabs_R0, Rmult_0_l. reflexivity.
Qed.

Lemma init_schedule_list (h : Init.heap) (l : Init.loc) (me iqr : R) :
  fst (Init.init_schedule h (Some l) me iqr) l = h l ++ [me].
Proof. simpl. unfold Init.upd. rewrite Nat.eqb_refl. reflexivity. Qed.

(** With a fixed schedule, after [__init__] appended [minimum_eps],
    [_calc_epsilon] returns the caller's [i]-th epsilon at stage [i], and
    [minimum_eps] at stage [len(epsilons)] (and at stage [-1]); any later
    stage raises [IndexError]. *)
Theorem fixed_schedule_stages (h : Init.heap) (l : Init.loc) (me iqr : R)
    (pop : list Scheduler.point) (vars : list String.string) :
  let sched := fst (Init.init_schedule h (Some l) me iqr) l in
  (forall i, (i < length (h l))%nat ->
     Scheduler.calc_epsilon (Some sched) pop vars iqr (Z.of_nat i) = Ok (nth i (h l) 0)) /\
  Scheduler.calc_epsilon (Some sched) pop vars iqr (Z.of_nat (length (h l))) = Ok me /\
  Scheduler.calc_epsilon (Some sched) pop vars iqr (-1) = Ok me /\
  (forall s, (Z.of_nat (length (h l)) < s)%Z ->
     Scheduler.calc_epsilon (Some sched) pop vars iqr s = Err IndexError).
Proof.
  cbv zeta. rewrite init_schedule_list. unfold Scheduler.calc_epsilon.
  split; [|split; [|split]].
  - intros i Hi. apply py_index_nat. rewrite nth_error_app1 by exact Hi.
    apply nth_error_nth'. exact Hi.
  - apply py_index_nat. rewrite nth_error_app2, Nat.sub_diag by lia. reflexivity.
  - unfold py_index. rewrite length_app. simpl length.
    assert (E1 : (0 <=? -1)%Z = false) by reflexivity.
    assert (E2 : (- Z.of_nat (length (h l) + 1) <=? -1)%Z = true) by (apply Z.leb_le; lia).
    rewrite E1, E2. simpl.
    replace (Z.to_nat (Z.of_nat (length (h l) + 1) + -1)) with (length (h l)) by lia.
    rewrite nth_error_app2, Nat.sub_diag by lia. reflexivity.
  - intros s Hs. unfold py_index. rewrite length_app. simpl length.
    assert (E1 : (s <? Z.of_nat (length (h l) + 1))%Z = false) by (apply Z.ltb_ge; lia).
    assert (E2 : (s <? 0)%Z = false) by (apply Z.ltb_ge; lia).
    rewrite E1, E2, !Bool.andb_false_r. reflexivity.
Qed.

Lemma calc_epsilon_constant_population_witness :
  Scheduler.calc_epsilon None [fun _ => 2; fun _ => 2] [var_x] 1 3 = Ok 0.
Proof.
  apply (calc_epsilon_constant_population [fun _ => 2; fun _ => 2] [var_x] 2 1 3).
  - discriminate.
  - discriminate.
  - intros d v [<-|[<-|[]]] _; reflexivity.
Defined.

Lemma fixed_schedule_stages_witness :
  Scheduler.calc_epsilon (Some (fst (Init.init_schedule (fun _ => [2; 3]) (Some 0%nat) (1/2) 1) 0%nat))
    [] [] 1 2 = Ok (1/2) /\
  Scheduler.calc_epsilon (Some (fst (Init.init_schedule (fun _ => [2; 3]) (Some 0%nat) (1/2) 1) 0%nat))
    [] [] 1 3 = Err IndexError.
Proof.
  destruct (fixed_schedule_stages (fun _ => [2; 3]) 0%nat (1/2) 1 [] []) as (_ & H2 & _ & H4).
  split; [exact H2|]. apply H4. simpl. lia.
Defined.

(** ** Extra properties of [sum_stats], [_sample], the proposal and the
    argument checks *)

Open Scope string_scope.
Open Scope R_scope.

Lemma set_nth_head {A : Type} (row row' : list A) (x : A) :
  set_nth row 0 x = Some row' -> row' = x :: tl row.
Proof. destruct row; simpl; intros H; [discriminate|]. injection H as <-. reflexivity. Qed.

Lemma set_nth_some {A : Type} (l : list A) (i : nat) (a v : A) :
  nth_error l i = Some a -> exists l', set_nth l i v = Some l'.
Proof.
  intros H. assert (Hi : (i < length l)%nat) by (apply nth_error_Some; congruence).
  destruct (set_nth_lt l i v Hi) as (l' & E & _). eauto.
Qed.

Lemma eval_stat_raise (data : SumStats.array2) (st : SumStats.stat) (e : pyexc) :
  SumStats.eval_stat data st = ERaise e ->
  e = TypeError /\ exists s, st = SumStats.SName s /\
    s <> "mean" /\ s <> "std" /\ s <> "var".
Proof.
  destruct st as [s|f]; simpl; [|discriminate].
  destruct (String.eqb_spec s "mean"); [discriminate|].
  destruct (String.eqb_spec s "std"); [discriminate|].
  destruct (String.eqb_spec s "var"); [discriminate|].
  intros H. injection H as <-. split; [reflexivity|]. exists s. auto.
Qed.

Lemma eval_stat_ok_iff (data : SumStats.array2) (st : SumStats.stat) :
  (exists x, SumStats.eval_stat data st = EOk x) <->
  (forall s, st = SumStats.SName s -> s = "mean" \/ s = "std" \/ s = "var").
Proof.
  destruct st as [s|f]; simpl.
  - split.
    + intros (x & Hx) s' Hs'. injection Hs' as <-.
      destruct (String.eqb_spec s "mean"); [auto|].
      destruct (String.eqb_spec s "std"); [auto|].
      destruct (String.eqb_spec s "var"); [auto|discriminate].
    + intros H. destruct (H s eq_refl) as [ -> | [ -> | -> ] ]; simpl; eauto.
  - split; [intros _ s Hs; discriminate|eauto].
Qed.

Lemma fill_stats_ok (data : SumStats.array2) (l : list SumStats.stat) :
  forall i v v', SumStats.fill_stats data i l v = EOk v' ->
  length v' = length v /\
  (forall k, (k < i \/ i + length l <= k)%nat -> nth_error v' k = nth_error v k) /\
  (forall k, (k < length l)%nat -> exists st x row,
     nth_error l k = Some st /\ SumStats.eval_stat data st = EOk x /\
     nth_error v (i + k) = Some row /\ nth_error v' (i + k) = Some (x :: tl row)).
Proof.
  induction l as [|st l IH]; intros i v v' H; simpl in H.
  - injection H as <-. split; [reflexivity|]. split; [reflexivity|]. simpl. lia.
  - destruct (SumStats.eval_stat data st) as [x|e] eqn:Ex; [|discriminate].
    destruct (nth_error v i) as [row|] eqn:Ev; [|discriminate].
    destruct (set_nth row 0 x) as [row'|] eqn:Er; [|discriminate].
    destruct (set_nth v i row') as [v1|] eqn:E1; [|discriminate].
    destruct (IH (S i) v1 v' H) as (H1 & H2 & H3).
    assert (Hv1 : forall k, k <> i -> nth_error v1 k = nth_error v k).
    { intros k Hk. rewrite (set_nth_nth_error _ _ _ _ E1 k).
      apply Nat.eqb_neq in Hk. rewrite Hk. reflexivity. }
    split; [rewrite H1; exact (set_nth_length _ _ _ _ E1)|]. split.
    + intros k Hk. simpl in Hk. rewrite H2 by lia. apply Hv1. lia.
    + intros [|k] Hk.
      * exists st, x, row. rewrite Nat.add_0_r. split; [reflexivity|]. split; [exact Ex|].
        split; [exact Ev|]. rewrite H2 by lia.
        rewrite (set_nth_nth_error _ _ _ _ E1 i), Nat.eqb_refl.
        rewrite (set_nth_head _ _ _ Er). reflexivity.
      * simpl in Hk. destruct (H3 k ltac:(lia)) as (st' & x' & row1 & Hs & Hx & Hr & Hr').
        exists st', x', row1. replace (i + S k)%nat with (S i + k)%nat by lia.
        split; [exact Hs|]. split; [exact Hx|]. split; [|exact Hr'].
        rewrite <- Hv1 by lia. exact Hr.
Qed.

Lemma fill_stats_succeeds (data : SumStats.array2) (row0 : list xR) (l : list SumStats.stat) :
  row0 <> [] ->
  (forall st, In st l -> exists x, SumStats.eval_stat data st = EOk x) ->
  forall i v, (forall k, (i <= k < i + length l)%nat -> nth_error v k = Some row0) ->
  exists v', SumStats.fill_stats data i l v = EOk v'.
Proof.
  intros Hr0. induction l as [|st l IH]; intros Hst i v Hv; simpl; [eauto|].
  destruct (Hst st (or_introl eq_refl)) as (x & Ex). rewrite Ex.
  rewrite (Hv i) by (simpl; lia).
  destruct row0 as [|a r0]; [contradiction|]. simpl.
  destruct (set_nth_some v i (a :: r0) (x :: r0)) as (v1 & E1); [apply Hv; simpl; lia|].
  rewrite E1. apply IH; [intros; apply Hst; right; assumption|].
  intros k Hk. rewrite (set_nth_nth_error _ _ _ _ E1 k).
  destruct (Nat.eqb_spec k i); [lia|]. apply Hv. simpl. lia.
Qed.

Lemma fill_stats_raise (data : SumStats.array2) (row0 : list xR) (l : list SumStats.stat) :
  forall i v e, (forall k, (i <= k < i + length l)%nat -> nth_error v k = Some row0) ->
  SumStats.fill_stats data i l v = ERaise e ->
  (e = TypeError /\ exists s, In (SumStats.SName s) l /\
     s <> "mean" /\ s <> "std" /\ s <> "var") \/
  (e = PyErr IndexError /\ row0 = []).
Proof.
  induction l as [|st l IH]; intros i v e Hv H; simpl in H; [discriminate|].
  destruct (SumStats.eval_stat data st) as [x|e'] eqn:Ex.
  - rewrite (Hv i) in H by (simpl; lia).
    destruct row0 as [|a r0]; simpl in H.
    + injection H as <-. right. auto.
    + destruct (set_nth_some v i (a :: r0) (x :: r0)) as (v1 & E1); [apply Hv; simpl; lia|].
      rewrite E1 in H.
      destruct (IH (S i) v1 e) as [(He & s & Hs & Hs')|Hb]; [| exact H | |].
      * intros k Hk. rewrite (set_nth_nth_error _ _ _ _ E1 k).
        destruct (Nat.eqb_spec k i); [lia|]. apply Hv. simpl. lia.
      * left. split; [exact He|]. exists s. split; [right; exact Hs|exact Hs'].
      * right. exact Hb.
  - injection H as <-. destruct (eval_stat_raise _ _ _ Ex) as (He & s & -> & Hs).
    left. split; [exact He|]. exists s. split; [left; reflexivity|exact Hs].
Qed.

Lemma nth_error_repeat_lt {A : Type} (a : A) (n k : nat) :
  (k < n)%nat -> nth_error (repeat a n) k = Some a.
Proof.
  revert k; induction n as [|n IH]; intros k Hk; [lia|].
  destruct k; simpl; [reflexivity|]. apply IH. lia.
Qed.

(** A table returned by [sum_stats] has one row per summary statistic;
    row [i] holds the value of the [i]-th statistic in column 0 and
    zeros in the [data.shape[1] - 1] other columns. *)
Theorem sum_stats_table (data : SumStats.array2) (l : list SumStats.stat) (v : list (list xR)) :
  SumStats.sum_stats data (Some l) = EOk v ->
  length v = length l /\
  forall k, (k < length l)%nat -> exists st x,
    nth_error l k = Some st /\ SumStats.eval_stat data st = EOk x /\
    nth_error v k = Some (x :: repeat (Fin 0) (SumStats.shape1 data - 1)).
Proof.
  simpl. intros H. destruct (fill_stats_ok data l 0 _ v H) as (H1 & _ & H3).
  rewrite repeat_length in H1. split; [exact H1|].
  intros k Hk. destruct (H3 k Hk) as (st & x & row & Hs & Hx & Hr & Hr').
  rewrite nth_error_repeat_lt in Hr by exact Hk. injection Hr as <-.
  exists st, x. split; [exact Hs|]. split; [exact Hx|]. simpl in Hr'. rewrite Hr'.
  destruct (SumStats.shape1 data); simpl; [reflexivity|rewrite Nat.sub_0_r; reflexivity].
Qed.

(** When [data] has at least one column, [sum_stats] succeeds exactly
    when every string in [sum_stat] is ["mean"], ["std"] or ["var"]
    (callables are always accepted). *)
Theorem sum_stats_succeeds_iff (data : SumStats.array2) (l : list SumStats.stat) :
  (0 < SumStats.shape1 data)%nat ->
  ((exists v, SumStats.sum_stats data (Some l) = EOk v) <->
   (forall s, In (SumStats.SName s) l -> s = "mean" \/ s = "std" \/ s = "var")).
Proof.
  intros Hd. split.
  - intros (v & Hv) s Hs. simpl in Hv.
    destruct (fill_stats_ok data l 0 _ v Hv) as (_ & _ & H3).
    destruct (In_nth_error _ _ Hs) as (k & Ek).
    destruct (H3 k) as (st & x & row & Hst & Hx & _); [apply nth_error_Some; congruence|].
    rewrite Ek in Hst. injection Hst as <-.
    apply (proj1 (eval_stat_ok_iff data (SumStats.SName s)) (ex_intro _ x Hx)). reflexivity.
  - intros H. simpl. apply (fill_stats_succeeds data (repeat (Fin 0) (SumStats.shape1 data))).
    + destruct (SumStats.shape1 data); [lia|discriminate].
    + intros st Hst. apply eval_stat_ok_iff. intros s ->. apply H. exact Hst.
    + intros k Hk. apply nth_error_repeat_lt. lia.
Qed.

(** [sum_stats] raises [TypeError] without a list of statistics; with a
    list it raises only [TypeError], for a string other than the three
    names, or [IndexError], when [data] has no column. *)
Theorem sum_stats_errors (data : SumStats.array2) :
  SumStats.sum_stats data None = ERaise TypeError /\
  forall l e, SumStats.sum_stats data (Some l) = ERaise e ->
  (e = TypeError /\ exists s, In (SumStats.SName s) l /\
     s <> "mean" /\ s <> "std" /\ s <> "var") \/
  (e = PyErr IndexError /\ SumStats.shape1 data = 0%nat).
Proof.
  split; [reflexivity|]. intros l e H. simpl in H.
  destruct (fill_stats_raise data (repeat (Fin 0) (SumStats.shape1 data)) l 0 (repeat (repeat (Fin 0) (SumStats.shape1 data)) (length l)) e) as [Ht|(He & Hr)];
    [intros k Hk; apply nth_error_repeat_lt; lia|exact H|left; exact Ht|].
  right. split; [exact He|]. destruct (SumStats.shape1 data); [reflexivity|discriminate].
Qed.



Section ProposalFacts.

Import Proposal.

Lemma chol_identity (n : nat) :
  forall A, (forall i j, (i < n)%nat -> (j < n)%nat -> A i j = kdelta i j) ->
  exists L, chol n A = Some L /\ forall i j, (i < n)%nat -> (j < n)%nat -> L i j = kdelta i j.
Proof.
  induction n as [|n IH]; intros A HA; simpl.
  - eexists; split; [reflexivity|]. intros; lia.
  - rewrite (HA 0%nat 0%nat) by lia. unfold kdelta at 1. simpl.
    destruct (Rle_dec 1 0) as [|_]; [lra|].
    match goal with |- context [chol n ?Sc] =>
      destruct (IH Sc) as (L' & E & HL'); [|rewrite E] end.
    { intros i j Hi Hj. rewrite !HA by lia. unfold kdelta. simpl. field. }
    eexists. split; [reflexivity|].
    intros [|i] [|j] Hi Hj.
    + unfold kdelta. simpl. apply sqrt_1.
    + reflexivity.
    + rewrite HA by lia. unfold kdelta. simpl. rewrite sqrt_1. field.
    + rewrite HL' by lia. reflexivity.
Qed.

Lemma entry_eye (d i j : nat) :
  (i < d)%nat -> (j < d)%nat -> entry (Choose.eye d) i j = kdelta i j.
Proof.
  intros Hi Hj. unfold entry, Choose.eye.
  rewrite (nth_map_cases _ _ _ 0%nat []), length_seq.
  apply Nat.ltb_lt in Hi. rewrite Hi. apply Nat.ltb_lt in Hi.
  rewrite (nth_map_cases _ _ _ 0%nat 0), length_seq.
  apply Nat.ltb_lt in Hj. rewrite Hj. apply Nat.ltb_lt in Hj.
  rewrite !seq_nth by lia. reflexivity.
Qed.

Lemma shape2_eye (d : nat) : (0 < d)%nat -> shape2 (Choose.eye d) = Some (d, d).
Proof.
  intros Hd. destruct d as [|d']; [lia|].
  unfold shape2. remember (Choose.eye (S d')) as e eqn:Ee.
  assert (Hrow : forall row, In row e -> length row = S d').
  { intros row Hr. subst e. unfold Choose.eye in Hr. apply in_map_iff in Hr.
    destruct Hr as (i & <- & _). rewrite length_map, length_seq. reflexivity. }
  assert (Hlen : length e = S d') by (subst e; unfold Choose.eye; rewrite length_map, length_seq; reflexivity).
  destruct e as [|r rs]; [discriminate|].
  rewrite (Hrow r (or_introl eq_refl)).
  replace (forallb _ _) with true.
  - rewrite Hlen. reflexivity.
  - symmetry. apply forallb_forall. intros row Hr. apply Nat.eqb_eq. apply Hrow. exact Hr.
Qed.

Lemma rsum_single (n : nat) : forall (f : nat -> R) (i : nat), (i < n)%nat ->
  (forall t, (t < n)%nat -> t <> i -> f t = 0) -> rsum n f = f i.
Proof.
  induction n as [|n IH]; intros f i Hi Hf; [lia|]. simpl.
  destruct i as [|i].
  - rewrite (rsum_zero n (fun t => f (S t))) by (intros t Ht; apply Hf; lia). ring.
  - rewrite (Hf 0%nat) by lia. rewrite (IH (fun t => f (S t)) i); [ring|lia|].
    intros t Ht Hti. apply Hf; lia.
Qed.

(** Without a covariance, [__init__] with the multivariate normal
    proposal sets [self.covariance] to the [d x d] identity and builds a
    proposal whose Cholesky factor is the identity, so the proposal
    draws are the standard normal draws unchanged. *)
Theorem default_proposal_identity (d : nat) :
  (0 < d)%nat ->
  exists p, Choose.init_proposal None "MultivariateNormal" d = (Some (Choose.eye d), EOk p) /\
    pn p = d /\
    (forall i j, (i < d)%nat -> (j < d)%nat -> pchol p i j = if Nat.eqb i j then 1 else 0) /\
    forall (b : nat -> nat -> R) (k : nat),
      Choose.call_many p k b = map (fun t => map (fun i => b i t) (seq 0 d)) (seq 0 k).
Proof.
  intros Hd. unfold Choose.init_proposal. simpl.
  unfold Choose.choose_proposal. simpl. unfold Choose.mvn_proposal.
  rewrite (init_square _ d (shape2_eye d Hd)).
  destruct (chol_identity d (lower_sym (Choose.eye d))) as (L & E & HL).
  { intros i j Hi Hj.
    assert (Hsym : symmetric d (entry (Choose.eye d))).
    { intros i' j' Hi' Hj'. rewrite !entry_eye by assumption. unfold kdelta.
      rewrite Nat.eqb_sym. reflexivity. }
    rewrite (lower_sym_entry d _ Hsym i j Hi Hj). apply entry_eye; assumption. }
  rewrite E. exists (mkProposal d L). split; [reflexivity|]. split; [reflexivity|]. split.
  - exact HL.
  - intros b k. unfold Choose.call_many. simpl. apply map_ext. intros t.
    apply map_ext_in. intros i Hi. apply in_seq in Hi.
    rewrite (rsum_single d _ i); [| lia |].
    2: { intros t' Ht' Hne. rewrite HL by lia. unfold kdelta.
         destruct (Nat.eqb_spec i t'); [lia|ring]. }
    rewrite HL by lia. unfold kdelta. rewrite Nat.eqb_refl. ring.
Qed.



End ProposalFacts.

Lemma prefix_app (s1 s2 : String.string) :
  String.prefix s1 s2 = true <-> exists suf, s2 = String.append s1 suf.
Proof.
  revert s2; induction s1 as [|a s1 IH]; intros s2; simpl.
  - split; [intros _; exists s2; reflexivity|intros _; destruct s2; reflexivity].
  - destruct s2 as [|b s2].
    + split; [discriminate|]. intros (suf & H). discriminate.
    + simpl. destruct (Ascii.ascii_dec a b) as [E|Hne]; [subst b|].
      * rewrite IH. split; intros (suf & H); exists suf; [rewrite H|injection H as ->]; reflexivity.
      * split; [discriminate|]. intros (suf & H). injection H as H _. congruence.
Qed.

Lemma contains_spec (needle hay : String.string) :
  Validate.contains needle hay = true <->
  exists pre suf, hay = String.append pre (String.append needle suf).
Proof.
  induction hay as [|c hay IH].
  - destruct needle as [|c n]; simpl.
    + split; [intros _; exists "", ""; reflexivity|reflexivity].
    + split; [discriminate|]. intros (pre & suf & H). destruct pre; discriminate.
  - change (Validate.contains needle (String.String c hay))
      with (if String.prefix needle (String.String c hay) then true else Validate.contains needle hay).
    destruct (String.prefix needle (String.String c hay)) eqn:E.
    + split; [intros _|reflexivity]. apply prefix_app in E. destruct E as (suf & H).
      exists "", suf. exact H.
    + rewrite IH. split.
      * intros (pre & suf & H). exists (String.String c pre), suf. rewrite H. reflexivity.
      * intros (pre & suf & H). destruct pre as [|c' pre].
        -- exfalso. assert (Hp : String.prefix needle (String.String c hay) = true)
             by (apply prefix_app; exists suf; exact H). congruence.
        -- injection H as _ H. exists pre, suf. exact H.
Qed.

(** The argument checks of [sample_smc_abc] pass exactly when a
    [homepath] is given, [chains / cores] is whole (or [cores <= 1]),
    [start], when given, has one point per chain, and the name of some
    deterministic variable contains [likelihood_name] as a substring;
    the population is then [start]. *)
Theorem validate_spec (homepath : option String.string) (cores step_chains : nat)
    (start : option (list Scheduler.point)) (names : list String.string) (lname : String.string)
    (r : option (list Scheduler.point)) :
  Validate.validate homepath cores step_chains start names lname = EOk r <->
  homepath <> None /\
  (cores <= 1 \/ step_chains mod cores = 0)%nat /\
  (forall s, start = Some s -> length s = step_chains) /\
  (exists nm pre suf, In nm names /\ nm = String.append pre (String.append lname suf)) /\
  r = start.
Proof.
  assert (Hex : existsb (fun nm => Validate.contains lname nm) names = true <->
                exists nm pre suf, In nm names /\ nm = String.append pre (String.append lname suf)).
  { rewrite existsb_exists. split.
    - intros (nm & Hin & Hc). apply contains_spec in Hc. destruct Hc as (pre & suf & H).
      exists nm, pre, suf. auto.
    - intros (nm & pre & suf & Hin & H). exists nm. split; [exact Hin|].
      apply contains_spec. eauto. }
  unfold Validate.validate, Validate.whole_division.
  destruct homepath as [hp|].
  2: { split; [discriminate|]. intros (H & _). contradiction. }
  assert (Hc : ((1 <? cores)%nat && negb (step_chains mod cores =? 0)%nat)%bool = false <->
               (cores <= 1 \/ step_chains mod cores = 0)%nat).
  { destruct (Nat.ltb_spec 1 cores), (Nat.eqb_spec (step_chains mod cores) 0); simpl;
      split; intros; try reflexivity; try lia; try discriminate. }
  destruct ((1 <? cores)%nat && negb (step_chains mod cores =? 0)%nat)%bool eqn:Eb.
  { split; [discriminate|]. intros (_ & H & _). apply Hc in H. discriminate. }
  destruct start as [s|].
  - destruct (Nat.eqb_spec (length s) step_chains) as [Hl|Hl]; simpl.
    + destruct (existsb _ names) eqn:Ee.
      * split.
        -- intros H. injection H as <-. split; [discriminate|]. split; [apply Hc; reflexivity|].
           split; [intros s' Hs'; injection Hs' as <-; exact Hl|]. split; [apply Hex; reflexivity|reflexivity].
        -- intros (_ & _ & _ & _ & ->). reflexivity.
      * split; [discriminate|]. intros (_ & _ & _ & H & _). apply Hex in H. discriminate.
    + split; [discriminate|]. intros (_ & _ & H & _). specialize (H s eq_refl). contradiction.
  - destruct (existsb _ names) eqn:Ee.
    + split.
      * intros H. injection H as <-. split; [discriminate|]. split; [apply Hc; reflexivity|].
        split; [discriminate|]. split; [apply Hex; reflexivity|reflexivity].
      * intros (_ & _ & _ & _ & ->). reflexivity.
    + split; [discriminate|]. intros (_ & _ & _ & H & _). apply Hex in H. discriminate.
Qed.

Lemma sum_stats_table_witness :
  length [[SumStats.mean stat_data; Fin 0]; [Fin 7; Fin 0]]
    = length [SumStats.SName "mean"; SumStats.SFun (fun _ => Fin 7)] /\
  forall k, (k < length [SumStats.SName "mean"; SumStats.SFun (fun _ => Fin 7)])%nat ->
    exists st x,
      nth_error [SumStats.SName "mean"; SumStats.SFun (fun _ => Fin 7)] k = Some st /\
      SumStats.eval_stat stat_data st = EOk x /\
      nth_error [[SumStats.mean stat_data; Fin 0]; [Fin 7; Fin 0]] k
        = Some (x :: repeat (Fin 0) (SumStats.shape1 stat_data - 1)).
Proof.
  apply (sum_stats_table stat_data [SumStats.SName "mean"; SumStats.SFun (fun _ => Fin 7)]).
  reflexivity.
Defined.

Lemma sum_stats_succeeds_iff_witness :
  (exists v, SumStats.sum_stats stat_data (Some [SumStats.SName "median"]) = EOk v) <->
  (forall s, In (SumStats.SName s) [SumStats.SName "median"] -> s = "mean" \/ s = "std" \/ s = "var").
Proof.
  apply (sum_stats_succeeds_iff stat_data [SumStats.SName "median"]). simpl. lia.
Defined.

Lemma sum_stats_errors_witness :
  (TypeError = TypeError /\ exists s, In (SumStats.SName s) [SumStats.SName "median"] /\
     s <> "mean" /\ s <> "std" /\ s <> "var") \/
  (TypeError = PyErr IndexError /\ SumStats.shape1 stat_data = 0%nat).
Proof.
  destruct (sum_stats_errors stat_data) as (_ & H).
  apply (H [SumStats.SName "median"] TypeError). reflexivity.
Defined.

Lemma default_proposal_identity_witness :
  exists p, Choose.init_proposal None "MultivariateNormal" 2 = (Some (Choose.eye 2), EOk p) /\
    Proposal.pn p = 2%nat /\
    (forall i j, (i < 2)%nat -> (j < 2)%nat -> Proposal.pchol p i j = if Nat.eqb i j then 1 else 0) /\
    forall (b : nat -> nat -> R) (k : nat),
      Choose.call_many p k b = map (fun t => map (fun i => b i t) (seq 0 2)) (seq 0 k).
Proof.
  apply (default_proposal_identity 2). lia.
Defined.



Lemma validate_spec_witness :
  Validate.validate (Some "out") 2 4 None ["my_l_like__2"] "l_like__" = EOk None.
Proof.
  apply (validate_spec (Some "out") 2 4 None ["my_l_like__2"] "l_like__" None).
  split; [discriminate|]. split; [right; reflexivity|]. split; [discriminate|].
  split; [|reflexivity]. exists "my_l_like__2", "my_", "2".
  split; [left; reflexivity|reflexivity].
Defined.

(** For acceptance rates in [[0, 1]], [tune] is monotone and its value
    lies in [[1/81, 1]]: [1/81] with no acceptance, [1] with all. *)
Theorem tune_monotone_bounded (a b : R) :
  0 <= a -> a <= b -> b <= 1 ->
  1 / 81 <= Tune.tune a /\ Tune.tune a <= Tune.tune b /\ Tune.tune b <= 1.
Proof.
  intros H0 Hab H1. unfold Tune.tune. cbv zeta. simpl.
  split; [|split]; nra.
Qed.

Lemma tune_monotone_bounded_witness :
  1 / 81 <= Tune.tune 0 /\ Tune.tune 0 <= Tune.tune (1/2) /\ Tune.tune (1/2) <= 1.
Proof.
  apply (tune_monotone_bounded 0 (1/2)); lra.
Defined.

Section ResampleCounts.

Import Resampling.

Lemma cumsum_from_length (acc : R) (w : list R) : length (cumsum_from acc w) = length w.
Proof. revert acc; induction w as [|h t IH]; intros acc; simpl; [reflexivity|]. rewrite IH. reflexivity. Qed.

Lemma cumsum_from_ge (w : list R) :
  (forall x, In x w -> 0 <= x) ->
  forall acc b, (b < length w)%nat -> acc <= nth b (cumsum_from acc w) 0.
Proof.
  induction w as [|h t IH]; intros Hw acc b Hb; simpl in Hb; [lia|].
  assert (Hh : 0 <= h) by (apply Hw; left; reflexivity).
  destruct b as [|b]; simpl; [lra|].
  apply Rle_trans with (acc + h); [lra|]. apply IH; [intros x Hx; apply Hw; right; exact Hx|lia].
Qed.

Lemma cumsum_from_mono (w : list R) :
  (forall x, In x w -> 0 <= x) ->
  forall acc a b, (a <= b)%nat -> (b < length w)%nat ->
    nth a (cumsum_from acc w) 0 <= nth b (cumsum_from acc w) 0.
Proof.
  induction w as [|h t IH]; intros Hw acc a b Hab Hb; simpl in Hb; [lia|].
  assert (Ht : forall x, In x t -> 0 <= x) by (intros x Hx; apply Hw; right; exact Hx).
  destruct a as [|a], b as [|b]; simpl; try lra; try lia.
  - apply cumsum_from_ge; [exact Ht|lia].
  - apply IH; [exact Ht|lia|lia].
Qed.

Lemma walk_first (t : R) (cum : list R) :
  forall fuel j j', walk fuel t cum j = Some j' ->
    (j <= j')%nat /\ (j' < length cum)%nat /\ t <= nth j' cum 0 /\
    forall m, (j <= m < j')%nat -> nth m cum 0 < t.
Proof.
  induction fuel as [|f IH]; intros j j' H; rewrite walk_eq in H;
    destruct (nth_error cum j) as [c|] eqn:E; try discriminate;
    assert (Hj : (j < length cum)%nat) by (apply nth_error_Some; congruence);
    pose proof (nth_error_nth cum j 0 E) as Ec; subst c.
  - destruct (Rlt_dec _ t); [discriminate|]. injection H as <-.
    split; [lia|]. split; [exact Hj|]. split; [lra|]. intros; lia.
  - destruct (Rlt_dec _ t) as [Hlt|Hge].
    + destruct (IH (S j) j' H) as (H1 & H2 & H3 & H4).
      split; [lia|]. split; [exact H2|]. split; [exact H3|].
      intros m Hm. destruct (Nat.eq_dec m j) as [->|]; [exact Hlt|]. apply H4. lia.
    + injection H as <-. split; [lia|]. split; [exact Hj|]. split; [lra|]. intros; lia.
Qed.

Lemma in_bin_unique (cum : list R) (t : R) (j : nat) :
  (forall a b, (a <= b)%nat -> (b < length cum)%nat -> nth a cum 0 <= nth b cum 0) ->
  (j < length cum)%nat -> t <= nth j cum 0 -> (forall m, (m < j)%nat -> nth m cum 0 < t) ->
  forall i, in_bin cum i t = Nat.eqb i j.
Proof.
  intros Hmono Hj Ht Hlt i. unfold in_bin.
  destruct (Nat.eqb_spec i j) as [->|Hne].
  - apply Nat.ltb_lt in Hj. rewrite Hj. simpl.
    destruct (Rle_dec t (nth j cum 0)) as [_|]; [|lra].
    destruct j as [|j']; [reflexivity|].
    destruct (Rlt_dec (nth j' cum 0) t) as [_|Hn]; [reflexivity|]. exfalso. apply Hn, Hlt. lia.
  - destruct (Nat.ltb_spec i (length cum)) as [Hi|]; [|reflexivity]. simpl.
    assert (Hc : (i < j \/ j < i)%nat) by lia. destruct Hc as [Hij|Hij].
    + specialize (Hlt i Hij). destruct (Rle_dec t (nth i cum 0)); [lra|].
      destruct i; [reflexivity|]. destruct (Rlt_dec _ t); reflexivity.
    + destruct i as [|i']; [lia|].
      assert (Hm : nth j cum 0 <= nth i' cum 0) by (apply Hmono; lia).
      destruct (Rlt_dec (nth i' cum 0) t); [lra|]. reflexivity.
Qed.

Lemma count_children_bins (cum : list R) (fuel : nat) :
  (forall a b, (a <= b)%nat -> (b < length cum)%nat -> nth a cum 0 <= nth b cum 0) ->
  forall us j nc nc', StronglySorted Rle us ->
    (forall m t, (m < j)%nat -> In t us -> nth m cum 0 < t) ->
    count_children fuel us cum j nc = Some nc' ->
    forall i, nth i nc' 0%nat = (nth i nc 0 + length (filter (in_bin cum i) us))%nat.
Proof.
  intros Hmono us. induction us as [|t us IH]; intros j nc nc' Hs Hinv H i; simpl in H.
  - injection H as <-. simpl. lia.
  - destruct (walk fuel t cum j) as [j'|] eqn:Ew; [|discriminate].
    destruct (nth_error nc j') as [c|] eqn:Ec; [|discriminate].
    destruct (set_nth nc j' (S c)) as [nc1|] eqn:E1; [|discriminate].
    inversion Hs as [|? ? Hs' Hall]; subst. rewrite Forall_forall in Hall.
    destruct (walk_first t cum fuel j j' Ew) as (Hjj & Hj' & Ht & Hbelow).
    assert (Hlt : forall m, (m < j')%nat -> nth m cum 0 < t).
    { intros m Hm. destruct (Nat.lt_ge_cases m j).
      - apply Hinv; [assumption|left; reflexivity].
      - apply Hbelow. lia. }
    assert (Hinv' : forall m t', (m < j')%nat -> In t' us -> nth m cum 0 < t').
    { intros m t' Hm Ht'. apply Rlt_le_trans with t; [apply Hlt; exact Hm|apply Hall; exact Ht']. }
    rewrite (IH j' nc1 nc' Hs' Hinv' H).
    simpl. rewrite (in_bin_unique cum t j' Hmono Hj' Ht Hlt i).
    assert (Hn1 : nth i nc1 0%nat = if Nat.eqb i j' then S c else nth i nc 0%nat).
    { destruct (Nat.eqb_spec i j') as [->|Hne].
      - apply nth_error_nth. rewrite (set_nth_nth_error _ _ _ _ E1 j'), Nat.eqb_refl. reflexivity.
      - destruct (Nat.lt_ge_cases i (length nc)) as [Hi|Hi].
        + apply nth_error_nth. rewrite (set_nth_nth_error _ _ _ _ E1 i).
          apply Nat.eqb_neq in Hne. rewrite Hne. apply nth_error_nth'. exact Hi.
        + rewrite !nth_overflow; [reflexivity|lia|]. rewrite (set_nth_length _ _ _ _ E1). lia. }
    rewrite Hn1. destruct (Nat.eqb_spec i j') as [->|]; simpl; [|reflexivity].
    rewrite (nth_error_nth nc j' 0%nat Ec). lia.
Qed.

Lemma count_occ_repeat (k c i : nat) :
  count_occ Nat.eq_dec (repeat k c) i = if Nat.eqb k i then c else 0%nat.
Proof.
  induction c as [|c IH]; simpl; [destruct (Nat.eqb k i); reflexivity|].
  rewrite IH. destruct (Nat.eq_dec k i) as [->|Hne].
  - rewrite Nat.eqb_refl. reflexivity.
  - apply Nat.eqb_neq in Hne. rewrite Hne. reflexivity.
Qed.

Lemma count_occ_blocks (nc : list nat) (n : nat) :
  forall s i, count_occ Nat.eq_dec (concat (map (fun k => repeat k (nth k nc 0%nat)) (seq s n))) i =
    if ((s <=? i)%nat && (i <? s + n)%nat)%bool then nth i nc 0%nat else 0%nat.
Proof.
  induction n as [|n IH]; intros s i; simpl.
  - destruct (s <=? i)%nat eqn:E1; destruct (i <? s + 0)%nat eqn:E2; simpl; try reflexivity.
    apply Nat.leb_le in E1. apply Nat.ltb_lt in E2. lia.
  - rewrite count_occ_app, count_occ_repeat, IH.
    destruct (Nat.eqb_spec s i) as [->|Hne].
    + rewrite Nat.leb_refl. replace (i <? i + S n)%nat with true by (symmetry; apply Nat.ltb_lt; lia).
      replace (S i <=? i)%nat with false by (symmetry; apply Nat.leb_gt; lia). simpl. lia.
    + destruct (Nat.leb_spec s i), (Nat.ltb_spec i (s + S n)), (Nat.leb_spec (S s) i),
        (Nat.ltb_spec i (S s + n)); simpl; try lia; reflexivity.
Qed.

Lemma targets_sorted_from (d u : R) (Hd : 0 < d) :
  forall n s, StronglySorted Rle (map (fun k => (INR k + u) / d) (seq s n)).
Proof.
  induction n as [|n IH]; intros s; simpl; constructor; [apply IH|].
  apply Forall_forall. intros y Hy. apply in_map_iff in Hy. destruct Hy as (k & <- & Hk).
  apply in_seq in Hk. unfold Rdiv. apply Rmult_le_compat_r; [left; apply Rinv_0_lt_compat, Hd|].
  apply Rplus_le_compat_r. apply le_INR. lia.
Qed.

Lemma targets_sorted (chains : nat) (u : R) :
  StronglySorted Rle (map (fun k => (INR k + u) / INR chains) (seq 0 chains)).
Proof.
  destruct chains as [|c]; [constructor|].
  apply targets_sorted_from. apply lt_0_INR. lia.
Qed.

End ResampleCounts.

(** Counting law of [resample]: for non-negative weights, whenever [resample] succeeds, every index [i] occurs in its
    output exactly as often as there are targets [(k + u) / chains],
    [k < chains], in bin [i] of the cumulative weights, that is with
    [cum[i-1] < target <= cum[i]]. *)
Theorem resample_counts (chains : nat) (w : list R) (u : R) (out : list nat) :
  (forall x, In x w -> 0 <= x) ->
  Resampling.resample chains w u = Ok out ->
  forall i, count_occ Nat.eq_dec out i =
    length (filter (in_bin (Resampling.cumsum w) i)
                   (map (fun k => (INR k + u) / INR chains) (seq 0 chains))).
Proof.
  intros Hw H i.
  destruct (resample_blocks chains w u out H) as (nc & Hl & _ & Hc & ->).
  assert (Hmono : forall a b, (a <= b)%nat -> (b < length (Resampling.cumsum w))%nat ->
            nth a (Resampling.cumsum w) 0 <= nth b (Resampling.cumsum w) 0).
  { unfold Resampling.cumsum. rewrite cumsum_from_length. intros a b Hab Hb.
    apply cumsum_from_mono; assumption. }
  pose proof (count_children_bins _ _ Hmono _ 0%nat _ nc (targets_sorted chains u)
                (fun m t Hm _ => match Nat.nlt_0_r m Hm with end) Hc i) as Hi.
  rewrite count_occ_blocks. rewrite nth_repeat in Hi.
  simpl. destruct (Nat.ltb_spec i chains) as [Hlt|Hge].
  - rewrite Hi. reflexivity.
  - rewrite nth_overflow in Hi by lia. lia.
Qed.

Lemma resample_counts_witness :
  count_occ Nat.eq_dec [0; 0; 2]%nat 0%nat =
    length (filter (in_bin (Resampling.cumsum [1/2; 0; 1/2]) 0)
                   (map (fun k => (INR k + 1/2) / INR 3) (seq 0 3))).
Proof.
  apply (resample_counts 3 [1/2; 0; 1/2] (1/2) [0; 0; 2]%nat).
  - intros x [<-|[<-|[<-|[]]]]; lra.
  - apply resample_example.
Defined.
